(** * ft5406: the multitouch decoder of [library/ft5406.py]

    A shallow embedding of the [Touch] and [Touchscreen] classes and the
    properties of the event decoding and dispatch that follow from the code.

    Conventions of the embedding.
    - Python integers are unbounded: they are [Z].
    - A [Touch] object is a record; a setter is a function from the old
      record to the new one.  The ten slot touches live in the list
      [Touchscreen.touches], and an attribute assignment through
      [_current_touch] rewrites the list at the index that Python's
      subscript resolves.
    - The attributes [on_move], [on_press], [on_release] hold [Some f] when
      they hold a callable [f], and [None] for Python's [None] or any other
      value that [callable] rejects.  The bodies of the callbacks are not
      part of the library: a call is recorded, with the arguments it
      receives, in the trace that dispatch produces, and is taken to return
      without touching the [Touch] it was given.
    - The device file is the list of bytes not read yet; [read(n)] on the
      buffered file returns the next [n] bytes, fewer only when the file
      ends, and the empty byte string at the end of the file. *)

From Stdlib Require Import ZArith Strings.Byte Strings.Ascii Lia.
From stdpp Require Import base numbers strings list.

Local Open Scope Z_scope.

(** ** Constants of the module *)

Definition TOUCH_X : Z := 0.
Definition TOUCH_Y : Z := 1.

Definition EV_SYN : Z := 0.
Definition EV_ABS : Z := 3.

Definition ABS_X : Z := 0.
Definition ABS_Y : Z := 1.

Definition ABS_MT_SLOT : Z := 0x2f.
Definition ABS_MT_POSITION_X : Z := 0x35.
Definition ABS_MT_POSITION_Y : Z := 0x36.
Definition ABS_MT_TRACKING_ID : Z := 0x39.

Definition TS_PRESS : Z := 1.
Definition TS_RELEASE : Z := 0.
Definition TS_MOVE : Z := 2.

(** A callable stored in a callback attribute, known by its name. *)
Definition handler := nat.

(** ** class Touch *)

Module Touch.

Record t := mk {
  slot : Z;
  _x : Z;
  _y : Z;
  last_x : Z;
  last_y : Z;
  _id : Z;
  events : list Z;
  on_move : option handler;
  on_press : option handler;
  on_release : option handler
}.

(** [Touch.__init__(self, slot, x, y)] *)
Definition init (slot x y : Z) : t :=
  {| slot := slot; _x := x; _y := y; last_x := -1; last_y := -1;
     _id := -1; events := []; on_move := None; on_press := None;
     on_release := None |}.

(** [self.events.append(event)] *)
Definition append (event : Z) (self : t) : t :=
  {| slot := slot self; _x := _x self; _y := _y self;
     last_x := last_x self; last_y := last_y self; _id := _id self;
     events := events self ++ [event];
     on_move := on_move self; on_press := on_press self;
     on_release := on_release self |}.

(** The getters. *)
Definition id (self : t) : Z := _id self.
Definition x (self : t) : Z := _x self.
Definition y (self : t) : Z := _y self.
Definition position (self : t) : Z * Z := (x self, y self).
Definition last_position (self : t) : Z * Z := (last_x self, last_y self).
Definition valid (self : t) : bool := bool_decide (id self > -1).

(** [@id.setter] *)
Definition set_id (value : Z) (self : t) : t :=
  let self :=
    if decide (value ≠ _id self) then
      if decide (value = -1 ∧ ¬ TS_RELEASE ∈ events self) then
        append TS_RELEASE self
      else if decide (¬ TS_PRESS ∈ events self) then
        append TS_PRESS self
      else self
    else self in
  {| slot := slot self; _x := _x self; _y := _y self;
     last_x := last_x self; last_y := last_y self; _id := value;
     events := events self;
     on_move := on_move self; on_press := on_press self;
     on_release := on_release self |}.

(** [@x.setter] *)
Definition set_x (value : Z) (self : t) : t :=
  let self :=
    if decide (value ≠ _x self ∧ ¬ TS_MOVE ∈ events self) then
      append TS_MOVE self
    else self in
  {| slot := slot self; _x := value; _y := _y self;
     last_x := _x self; last_y := last_y self; _id := _id self;
     events := events self;
     on_move := on_move self; on_press := on_press self;
     on_release := on_release self |}.

(** [@y.setter] *)
Definition set_y (value : Z) (self : t) : t :=
  let self :=
    if decide (value ≠ _y self ∧ ¬ TS_MOVE ∈ events self) then
      append TS_MOVE self
    else self in
  {| slot := slot self; _x := _x self; _y := value;
     last_x := last_x self; last_y := _y self; _id := _id self;
     events := events self;
     on_move := on_move self; on_press := on_press self;
     on_release := on_release self |}.

(** One recorded call [f(event, touch)]. *)
Record call := Call {
  callee : handler;
  arg_event : Z;
  arg_touch : t
}.

(** [if callable(cb): cb(event, self)] *)
Definition invoke (cb : option handler) (event : Z) (self : t) : list call :=
  match cb with
  | Some f => [Call f event self]
  | None => []
  end.

(** The body of the loop of [handle_events], for one [event]. *)
Definition handle_event (self : t) (event : Z) : list call :=
  (if decide (event = TS_MOVE) then invoke (on_move self) event self else [])
  ++ (if decide (event = TS_PRESS) then invoke (on_press self) event self else [])
  ++ (if decide (event = TS_RELEASE) then invoke (on_release self) event self else []).

(** [self.events = []] *)
Definition clear (self : t) : t :=
  {| slot := slot self; _x := _x self; _y := _y self;
     last_x := last_x self; last_y := last_y self; _id := _id self;
     events := [];
     on_move := on_move self; on_press := on_press self;
     on_release := on_release self |}.

(** [handle_events(self)]: the calls made, in order, and the touch after. *)
Definition handle_events (self : t) : list call * t :=
  (flat_map (handle_event self) (events self), clear self).

End Touch.

(** ** class Touches(list) *)

Module Touches.

(** The property [valid]: the touches with an id above -1. *)
Definition valid (self : list Touch.t) : list Touch.t :=
  List.filter Touch.valid self.

End Touches.

(** ** The record format [EVENT_FORMAT = 'llHHi']

    [struct] lays the record out in native mode: two C [long]s, two
    [unsigned short]s and an [int], in the byte order of the machine.  With
    a [long] of 4 or of 8 bytes every field is aligned without padding. *)

Inductive long_model := ILP32 | LP64.
Inductive byte_order := LittleEndian | BigEndian.

Record platform := Platform {
  longs : long_model;
  order : byte_order
}.

Definition sizeof_long (p : platform) : nat :=
  match longs p with ILP32 => 4%nat | LP64 => 8%nat end.

(** [struct.calcsize('llHHi')] *)
Definition calcsize (p : platform) : nat :=
  (sizeof_long p + sizeof_long p + 2 + 2 + 4)%nat.

(** The unsigned value of bytes given least significant first. *)
Definition le_uint (bs : list byte) : Z :=
  fold_right (fun b acc => Z.of_N (Byte.to_N b) + 256 * acc) 0 bs.

Definition unpack_uint (p : platform) (bs : list byte) : Z :=
  le_uint (match order p with LittleEndian => bs | BigEndian => rev bs end).

(** Two's complement over the width of [bs]. *)
Definition unpack_int (p : platform) (bs : list byte) : Z :=
  let u := unpack_uint p bs in
  let width := 8 * Z.of_nat (length bs) in
  if decide (u < 2 ^ (width - 1)) then u else u - 2 ^ width.

(** The bytes [bs[off : off + len]]. *)
Definition slice (off len : nat) (bs : list byte) : list byte :=
  take len (drop off bs).

(** [struct.unpack('llHHi', bs)]: [None] stands for [struct.error], raised
    when [bs] has not exactly [calcsize] bytes. *)
Definition unpack (p : platform) (bs : list byte) : option (Z * Z * Z * Z * Z) :=
  if decide (length bs = calcsize p) then
    let w := sizeof_long p in
    Some (unpack_int p (slice 0 w bs),
          unpack_int p (slice w w bs),
          unpack_uint p (slice (w + w) 2 bs),
          unpack_uint p (slice (w + w + 2) 2 bs),
          unpack_int p (slice (w + w + 4) 4 bs))
  else None.

(** [TouchEvent = namedtuple('TouchEvent', ('timestamp', 'type', 'code',
    'value'))].  Python computes the timestamp [tv_sec + tv_usec / 1000000]
    as a float; the record keeps the pair [(tv_sec, tv_usec)] it is computed
    from, and nothing below reads it. *)
Record TouchEvent := mkTouchEvent {
  timestamp : Z * Z;
  type : Z;
  code : Z;
  value : Z
}.

(** ** Exceptions and the state-and-exception monad of the methods *)

Inductive exn :=
| struct_error   (* struct.error, from struct.unpack *)
| IndexError.    (* list index out of range *)

Inductive result (A : Type) :=
| Ok (a : A)
| Raise (e : exn).
Arguments Ok {A} a.
Arguments Raise {A} e.

Definition M (S A : Type) : Type := S → result A * S.

Definition ret {S A} (a : A) : M S A := fun s => (Ok a, s).
Definition raise {S A} (e : exn) : M S A := fun s => (Raise e, s).
Definition bind {S A B} (m : M S A) (k : A → M S B) : M S B :=
  fun s => match m s with
           | (Ok a, s') => k a s'
           | (Raise e, s') => (Raise e, s')
           end.
Definition modify {S} (f : S → S) : M S unit := fun s => (Ok tt, f s).
(** [if c: body] *)
Definition when {S} (c : bool) (body : M S unit) : M S unit :=
  if c then body else ret tt.

Notation "x <- m ;; k" := (bind m (fun x => k))
  (at level 100, m at next level, right associativity).
Notation "m ;; k" := (bind m (fun _ => k))
  (at level 100, right associativity).

(** Python's [l[i]] on a list of length [len]: the position that the
    subscript [i] names, counting from the end when [i] is negative, and
    [IndexError] outside [-len .. len - 1]. *)
Definition subscript (len : nat) (i : Z) : result nat :=
  if decide (0 ≤ i < Z.of_nat len) then Ok (Z.to_nat i)
  else if decide (- Z.of_nat len ≤ i < 0) then Ok (Z.to_nat (Z.of_nat len + i))
  else Raise IndexError.

(** Which object a callback was invoked on: the single-touch [position] or
    the touch at a place of [touches]. *)
Inductive touch_ref :=
| PositionRef
| SlotRef (i : nat).

(** ** class Touchscreen *)

Module Touchscreen.

Record t := mk {
  _running : bool;
  _thread : bool;               (* [self._thread is not None] *)
  _f_device : list byte;        (* the bytes of the device not read yet *)
  position : Touch.t;
  touches : list Touch.t;
  _touch_slot : Z
}.

(** [Touchscreen.__init__(self)], on the device file opened for reading. *)
Definition init (device : list byte) : t :=
  {| _running := false; _thread := false; _f_device := device;
     position := Touch.init 0 0 0;
     touches := map (fun x => Touch.init (Z.of_nat x) 0 0) (seq 0 10);
     _touch_slot := 0 |}.

Definition set_f_device (d : list byte) (self : t) : t :=
  {| _running := _running self; _thread := _thread self; _f_device := d;
     position := position self; touches := touches self;
     _touch_slot := _touch_slot self |}.

Definition set_position (f : Touch.t → Touch.t) (self : t) : t :=
  {| _running := _running self; _thread := _thread self;
     _f_device := _f_device self;
     position := f (position self); touches := touches self;
     _touch_slot := _touch_slot self |}.

Definition set_touches (l : list Touch.t) (self : t) : t :=
  {| _running := _running self; _thread := _thread self;
     _f_device := _f_device self;
     position := position self; touches := l;
     _touch_slot := _touch_slot self |}.

Definition set_touch_slot (v : Z) (self : t) : t :=
  {| _running := _running self; _thread := _thread self;
     _f_device := _f_device self;
     position := position self; touches := touches self;
     _touch_slot := v |}.

(** The property [_current_touch], as the place in [touches] of the
    object that [self.touches[self._touch_slot]] returns. *)
Definition _current_touch : M t nat :=
  fun self => (subscript (length (touches self)) (_touch_slot self), self).

(** [self._current_touch.attr = v], with the setter of [attr] as [f]. *)
Definition set_current_touch (f : Touch.t → Touch.t) : M t unit :=
  i <- _current_touch ;;
  modify (fun self => set_touches (alter f i (touches self)) self).

(** The registry: what the decoder keeps between records. *)
Definition registry (self : t) : Touch.t * list Touch.t * Z :=
  (position self, touches self, _touch_slot self).

Section Decoder.

Variable p : platform.

Definition EVENT_SIZE : nat := calcsize p.

(** [self._f_device.read(n)] *)
Definition device_read (n : nat) : M t (list byte) :=
  fun self => (Ok (take n (_f_device self)),
               set_f_device (drop n (_f_device self)) self).

(** [read(self)], that is [next(iter(self))]: the first turn of the loop
    of [__iter__], up to its [yield]. *)
Definition read : M t TouchEvent :=
  event <- device_read EVENT_SIZE ;;
  match unpack p event with
  | Some (tv_sec, tv_usec, type, code, value) =>
      ret (mkTouchEvent (tv_sec, tv_usec) type code value)
  | None => raise struct_error
  end.

(** The branch [if event.type == EV_ABS:] of [poll]. *)
Definition poll_abs (event : TouchEvent) : M t unit :=
  when (bool_decide (code event = ABS_MT_SLOT))
    (modify (set_touch_slot (value event))) ;;
  when (bool_decide (code event = ABS_MT_TRACKING_ID))
    (set_current_touch (Touch.set_id (value event))) ;;
  when (bool_decide (code event = ABS_MT_POSITION_X))
    (set_current_touch (Touch.set_x (value event))) ;;
  when (bool_decide (code event = ABS_MT_POSITION_Y))
    (set_current_touch (Touch.set_y (value event))) ;;
  when (bool_decide (code event = ABS_X))
    (modify (set_position (Touch.set_x (value event)))) ;;
  when (bool_decide (code event = ABS_Y))
    (modify (set_position (Touch.set_y (value event)))).

(** [for touch in self.touches: touch.handle_events()], from place [i]
    on: the calls made, each with the object it was made on, and the
    touches after. *)
Fixpoint dispatch (i : nat) (l : list Touch.t)
  : list (touch_ref * Touch.call) * list Touch.t :=
  match l with
  | [] => ([], [])
  | touch :: l =>
      let '(cs, touch') := Touch.handle_events touch in
      let '(cs', l') := dispatch (S i) l in
      (map (pair (SlotRef i)) cs ++ cs', touch' :: l')
  end.

(** What one call of [poll] did: its return value ([None] for the bare
    [return], the list [self.touches] otherwise) or the exception it
    raised, the callbacks it invoked, and the object afterwards. *)
Record outcome := Outcome {
  returned : result (option (list Touch.t));
  calls : list (touch_ref * Touch.call);
  final : t
}.

(** [poll(self)].  Every turn of [while True] that goes round again has
    read [EVENT_SIZE] bytes; [fuel] bounds the number of turns. *)
Fixpoint poll_loop (fuel : nat) (self : t) : option outcome :=
  match fuel with
  | O => None
  | S fuel =>
      if _thread self && negb (_running self) then
        Some (Outcome (Ok None) [] self)
      else
        match read self with
        | (Raise e, self) => Some (Outcome (Raise e) [] self)
        | (Ok event, self) =>
            if decide (type event = EV_SYN) then
              let '(cs, l) := dispatch 0 (touches self) in
              let self := set_touches l self in
              Some (Outcome (Ok (Some (touches self))) cs self)
            else
              match when (bool_decide (type event = EV_ABS))
                         (poll_abs event) self with
              | (Raise e, self) => Some (Outcome (Raise e) [] self)
              | (Ok _, self) => poll_loop fuel self
              end
        end
  end.

(** One turn more than the device has bytes is always enough
    ([poll_loop_enough] below). *)
Definition poll (self : t) : option outcome :=
  poll_loop (S (length (_f_device self))) self.

End Decoder.

End Touchscreen.

(** ** Writes to one touch, as [poll] issues them between two barriers *)

Inductive write :=
| WriteId (v : Z)    (* touch.id = v *)
| WriteX (v : Z)     (* touch.x = v *)
| WriteY (v : Z).    (* touch.y = v *)

Definition apply_write (t : Touch.t) (w : write) : Touch.t :=
  match w with
  | WriteId v => Touch.set_id v t
  | WriteX v => Touch.set_x v t
  | WriteY v => Touch.set_y v t
  end.

Definition apply_writes (ws : list write) (t : Touch.t) : Touch.t :=
  foldl apply_write t ws.

Definition coordinate_write (w : write) : Prop :=
  match w with WriteId _ => False | _ => True end.

(** The attribute that [handle_events] consults for [event]. *)
Definition callback_for (t : Touch.t) (event : Z) : option handler :=
  if decide (event = TS_MOVE) then Touch.on_move t
  else if decide (event = TS_PRESS) then Touch.on_press t
  else if decide (event = TS_RELEASE) then Touch.on_release t
  else None.

(** The events that reach a callback, in the order of the calls. *)
Definition dispatched_events (t : Touch.t) : list Z :=
  map Touch.arg_event (fst (Touch.handle_events t)).

(** The order the specification words for dispatch: Move, then Press, then
    Release, each when it is pending and has a callable attribute. *)
Definition spec_fixed_order (t : Touch.t) : list Z :=
  filter (λ e, e ∈ Touch.events t ∧ is_Some (callback_for t e))
         [TS_MOVE; TS_PRESS; TS_RELEASE].

(** A touch with the three callbacks assigned, as the demonstration at the
    end of the file does for every touch. *)
Definition with_callbacks (m p r : handler) (t : Touch.t) : Touch.t :=
  {| Touch.slot := Touch.slot t; Touch._x := Touch._x t;
     Touch._y := Touch._y t; Touch.last_x := Touch.last_x t;
     Touch.last_y := Touch.last_y t; Touch._id := Touch._id t;
     Touch.events := Touch.events t;
     Touch.on_move := Some m; Touch.on_press := Some p;
     Touch.on_release := Some r |}.

(** A touch that was pressed and then moved within one frame: the records
    [ABS_MT_TRACKING_ID 5] and [ABS_MT_POSITION_X 3] on a new touch with its
    callbacks assigned. *)
Definition pressed_then_moved : Touch.t :=
  Touch.set_x 3 (Touch.set_id 5 (with_callbacks 1%nat 2%nat 3%nat (Touch.init 0 0 0))).

(** The two kinds of event that an id write appends. *)
Definition press_or_release (e : Z) : Prop := e = TS_PRESS ∨ e = TS_RELEASE.

#[global] Instance press_or_release_dec e : Decision (press_or_release e).
Proof. unfold press_or_release. apply _. Defined.

(** ** Relations between two states of the touchscreen *)

(** What handling a record, once it is read, leaves alone: the device, the
    two flags of the thread and the number of touches. *)
Definition same_frame (self self' : Touchscreen.t) : Prop :=
  Touchscreen._f_device self' = Touchscreen._f_device self
  ∧ Touchscreen._running self' = Touchscreen._running self
  ∧ Touchscreen._thread self' = Touchscreen._thread self
  ∧ length (Touchscreen.touches self') = length (Touchscreen.touches self).

(** The single-touch [position] was only written to: its pending events
    were extended, never cleared, and its id and its callbacks are the
    same. *)
Definition position_kept (self self' : Touchscreen.t) : Prop :=
  Touch.events (Touchscreen.position self)
    `prefix_of` Touch.events (Touchscreen.position self')
  ∧ Touch._id (Touchscreen.position self')
    = Touch._id (Touchscreen.position self)
  ∧ Touch.on_move (Touchscreen.position self')
    = Touch.on_move (Touchscreen.position self)
  ∧ Touch.on_press (Touchscreen.position self')
    = Touch.on_press (Touchscreen.position self)
  ∧ Touch.on_release (Touchscreen.position self')
    = Touch.on_release (Touchscreen.position self).

(** [poll] returns early when a thread was started and then stopped. *)
Definition stopped (self : Touchscreen.t) : bool :=
  Touchscreen._thread self && negb (Touchscreen._running self).

(** The calls of the barrier, spelled out: for each touch in turn, at its
    place in the list, the calls of its [handle_events]. *)
Definition barrier_calls (l : list Touch.t) : list (touch_ref * Touch.call) :=
  mjoin (imap (λ i touch, map (pair (SlotRef i)) (fst (Touch.handle_events touch))) l).

(** No touch of the touchscreen has an event pending twice. *)
Definition pending_NoDup (self : Touchscreen.t) : Prop :=
  NoDup (Touch.events (Touchscreen.position self))
  ∧ Forall (λ touch, NoDup (Touch.events touch)) (Touchscreen.touches self).

(** ** Device contents for the examples *)

(** The [n] bytes of [z], least significant first. *)
Definition le_bytes (n : nat) (z : Z) : list byte :=
  map (λ i, default x00 (Byte.of_N (Z.to_N ((z / 2 ^ (8 * Z.of_nat i)) mod 256))))
      (seq 0 n).

(** One field of [n] bytes in the byte order of the machine. *)
Definition field (p : platform) (n : nat) (z : Z) : list byte :=
  match order p with
  | LittleEndian => le_bytes n z
  | BigEndian => rev (le_bytes n z)
  end.

(** The bytes of one record as the kernel writes them: the layout that
    [unpack] reads. *)
Definition pack (p : platform) (tv_sec tv_usec type code value : Z) : list byte :=
  field p (sizeof_long p) tv_sec ++ field p (sizeof_long p) tv_usec
  ++ field p 2 type ++ field p 2 code ++ field p 4 value.

(** The values that fit the fields of a record: two C [long]s, two
    [unsigned short]s and an [int]. *)
Definition fits (p : platform) (tv_sec tv_usec type code value : Z) : Prop :=
  let w := 8 * Z.of_nat (sizeof_long p) in
  (- 2 ^ (w - 1) ≤ tv_sec < 2 ^ (w - 1))
  ∧ (- 2 ^ (w - 1) ≤ tv_usec < 2 ^ (w - 1))
  ∧ (0 ≤ type < 2 ^ 16) ∧ (0 ≤ code < 2 ^ 16)
  ∧ (- 2 ^ 31 ≤ value < 2 ^ 31).

(** A 64-bit and a 32-bit little-endian machine. *)
Definition lp64 : platform := Platform LP64 LittleEndian.
Definition ilp32 : platform := Platform ILP32 LittleEndian.

(** A touchscreen on [device] whose touches and position all have the three
    callbacks [m], [p], [r] assigned. *)
Definition touchscreen_with_callbacks (m p r : handler) (device : list byte)
  : Touchscreen.t :=
  let ts := Touchscreen.init device in
  Touchscreen.set_position (with_callbacks m p r)
    (Touchscreen.set_touches
       (map (with_callbacks m p r) (Touchscreen.touches ts)) ts).

(** A barrier record, and the first three bytes of a record cut short. *)
Definition syn_record (p : platform) : list byte := pack p 0 0 EV_SYN 0 0.
Definition short_record : list byte := [x03; x00; x2f].

(** A touchscreen in the middle of a frame, with a barrier as the next
    record: slot 2 was given the id 10 and [x = 100], slot 7 was moved, and
    the other eight slots received nothing. *)
Definition before_barrier (p : platform) : Touchscreen.t :=
  let ts := touchscreen_with_callbacks 1%nat 2%nat 3%nat (syn_record p) in
  Touchscreen.set_touches
    (alter (Touch.set_y 40) 7%nat
       (alter (Touch.set_x 100) 2%nat
          (alter (Touch.set_id 10) 2%nat (Touchscreen.touches ts)))) ts.

(** The same touchscreen when the device ends, and when it holds only a
    record cut short. *)
Definition at_end_of_stream (p : platform) : Touchscreen.t :=
  Touchscreen.set_f_device [] (before_barrier p).
Definition at_short_record (p : platform) : Touchscreen.t :=
  Touchscreen.set_f_device short_record (before_barrier p).

(** Frames that select a slot outside [0 .. 9] and then write [x = 7]
    through the cursor. *)
Definition negative_slot_frame (p : platform) : list byte :=
  pack p 0 0 EV_ABS ABS_MT_SLOT (-1)
  ++ pack p 0 0 EV_ABS ABS_MT_POSITION_X 7 ++ syn_record p.
Definition large_slot_frame (p : platform) : list byte :=
  pack p 0 0 EV_ABS ABS_MT_SLOT 10
  ++ pack p 0 0 EV_ABS ABS_MT_POSITION_X 7 ++ syn_record p.

(** Two frames that move the single-touch position. *)
Definition single_touch_frames (p : platform) : list byte :=
  pack p 0 0 EV_ABS ABS_X 5 ++ syn_record p
  ++ pack p 0 0 EV_ABS ABS_Y 6 ++ syn_record p.

(** [n] calls of [poll] one after the other, as a caller that polls in a
    loop makes them, up to the first that raises: the callbacks invoked and
    the object afterwards. *)
Fixpoint polls (p : platform) (n : nat) (self : Touchscreen.t)
  : list (touch_ref * Touch.call) * Touchscreen.t :=
  match n with
  | O => ([], self)
  | S n =>
      match Touchscreen.poll p self with
      | Some o =>
          match Touchscreen.returned o with
          | Ok _ =>
              let '(cs, self') := polls p n (Touchscreen.final o) in
              (Touchscreen.calls o ++ cs, self')
          | Raise _ => (Touchscreen.calls o, Touchscreen.final o)
          end
      | None => ([], self)
      end
  end.

(** The frames of a contact on slot 2: it comes down at (100, 200), moves
    to [x = 150], and is lifted. *)
Definition contact_frames (p : platform) : list byte :=
  pack p 0 0 EV_ABS ABS_MT_SLOT 2
  ++ pack p 0 0 EV_ABS ABS_MT_TRACKING_ID 10
  ++ pack p 0 0 EV_ABS ABS_MT_POSITION_X 100
  ++ pack p 0 0 EV_ABS ABS_MT_POSITION_Y 200 ++ syn_record p
  ++ pack p 0 0 EV_ABS ABS_MT_SLOT 2
  ++ pack p 0 0 EV_ABS ABS_MT_POSITION_X 150 ++ syn_record p
  ++ pack p 0 0 EV_ABS ABS_MT_SLOT 2
  ++ pack p 0 0 EV_ABS ABS_MT_TRACKING_ID (-1) ++ syn_record p.

(** What the examples read off a call: the object, the callable, the event
    and the coordinates of the touch it received. *)
Definition call_summary (c : touch_ref * Touch.call)
  : touch_ref * handler * Z * (Z * Z) * (Z * Z) :=
  (fst c, Touch.callee (snd c), Touch.arg_event (snd c),
   Touch.position (Touch.arg_touch (snd c)),
   Touch.last_position (Touch.arg_touch (snd c))).

(** ** Iterating over the touchscreen: [Touchscreen.__iter__] *)

(** The events that the generator of [__iter__] yields, in order, up to the
    exception that ends it, and the object then.  Each turn of its
    [while True] is one [read]; [fuel] bounds the number of turns. *)
Fixpoint iter_loop (p : platform) (fuel : nat) (self : Touchscreen.t)
  : option (list TouchEvent * exn * Touchscreen.t) :=
  match fuel with
  | O => None
  | S fuel =>
      match Touchscreen.read p self with
      | (Ok event, self) =>
          match iter_loop p fuel self with
          | Some (events, e, self) => Some (event :: events, e, self)
          | None => None
          end
      | (Raise e, self) => Some ([], e, self)
      end
  end.

Definition __iter__ (p : platform) (self : Touchscreen.t)
  : option (list TouchEvent * exn * Touchscreen.t) :=
  iter_loop p (S (length (Touchscreen._f_device self))) self.

(** The bytes of the record of an event. *)
Definition encode (p : platform) (event : TouchEvent) : list byte :=
  pack p (fst (timestamp event)) (snd (timestamp event))
         (type event) (code event) (value event).

Definition event_fits (p : platform) (event : TouchEvent) : Prop :=
  fits p (fst (timestamp event)) (snd (timestamp event))
         (type event) (code event) (value event).

(** ** The turns of [poll] before the barrier *)

(** What [poll] does with a record that is not a barrier. *)
Definition handle_record (event : TouchEvent) : M Touchscreen.t unit :=
  when (bool_decide (type event = EV_ABS)) (Touchscreen.poll_abs event).

Fixpoint handle_records (events : list TouchEvent) : M Touchscreen.t unit :=
  match events with
  | [] => ret tt
  | event :: events => handle_record event ;; handle_records events
  end.

(** The codes that the [EV_ABS] branch of [poll] tests for. *)
Definition abs_codes : list Z :=
  [ABS_MT_SLOT; ABS_MT_TRACKING_ID; ABS_MT_POSITION_X; ABS_MT_POSITION_Y;
   ABS_X; ABS_Y].

(** A record that [poll] reads and passes over. *)
Definition ignored (event : TouchEvent) : Prop :=
  type event ≠ EV_SYN ∧ (type event ≠ EV_ABS ∨ code event ∉ abs_codes).

(** The three kinds of event. *)
Definition known_event (e : Z) : Prop :=
  e = TS_RELEASE ∨ e = TS_PRESS ∨ e = TS_MOVE.

(** ** The loop of the thread: [Touchscreen._run] *)

Definition set_running (b : bool) (self : Touchscreen.t) : Touchscreen.t :=
  {| Touchscreen._running := b;
     Touchscreen._thread := Touchscreen._thread self;
     Touchscreen._f_device := Touchscreen._f_device self;
     Touchscreen.position := Touchscreen.position self;
     Touchscreen.touches := Touchscreen.touches self;
     Touchscreen._touch_slot := Touchscreen._touch_slot self |}.

(** How [_run] ended: [None] when its loop ended and it returned, the
    exception otherwise; the callbacks invoked; the object then. *)
Record run_outcome := RunOutcome {
  run_raised : option exn;
  run_calls : list (touch_ref * Touch.call);
  run_final : Touchscreen.t
}.

(** [while self._running: self.poll(); time.sleep(0.001)], with no other
    thread writing to the object meanwhile. *)
Fixpoint _run_loop (p : platform) (fuel : nat) (self : Touchscreen.t)
  : option run_outcome :=
  match fuel with
  | O => None
  | S fuel =>
      if Touchscreen._running self then
        match Touchscreen.poll p self with
        | Some o =>
            match Touchscreen.returned o with
            | Ok _ =>
                match _run_loop p fuel (Touchscreen.final o) with
                | Some r =>
                    Some (RunOutcome (run_raised r)
                            (Touchscreen.calls o ++ run_calls r) (run_final r))
                | None => None
                end
            | Raise e =>
                Some (RunOutcome (Some e) (Touchscreen.calls o)
                                 (Touchscreen.final o))
            end
        | None => None
        end
      else Some (RunOutcome None [] self)
  end.

(** [_run(self)] *)
Definition _run (p : platform) (self : Touchscreen.t) : option run_outcome :=
  let self := set_running true self in
  _run_loop p (S (length (Touchscreen._f_device self))) self.

(** ** Finding the device: [Touchscreen._touch_device] *)

Definition TOUCHSCREEN_EVDEV_NAME : string := "FT5406 memory based driver".

(** [errno.ENOENT] *)
Definition ENOENT : Z := 2.

(** Python's [str] is modelled by [string]: text whose characters have
    codes below 256.  [isspace] is [str.isspace] on such a character. *)
Definition isspace (c : Ascii.ascii) : bool :=
  let n := Ascii.nat_of_ascii c in
  ((9 <=? n) && (n <=? 13) || (28 <=? n) && (n <=? 32)
   || (n =? 133) || (n =? 160))%nat.

Fixpoint lstrip (s : string) : string :=
  match s with
  | EmptyString => EmptyString
  | String c s' => if isspace c then lstrip s' else s
  end.

Fixpoint rstrip (s : string) : string :=
  match s with
  | EmptyString => EmptyString
  | String c s' =>
      match rstrip s' with
      | EmptyString => if isspace c then EmptyString else String c EmptyString
      | r => String c r
      end
  end.

(** [s.strip()] *)
Definition strip (s : string) : string := rstrip (lstrip s).

Definition is_sep (c : Ascii.ascii) : bool := Ascii.eqb c "/"%char.

(** [b.startswith('/')] and [path.endswith('/')] *)
Definition startswith_sep (b : string) : bool :=
  match b with
  | String c _ => is_sep c
  | EmptyString => false
  end.

Fixpoint endswith_sep (path : string) : bool :=
  match path with
  | EmptyString => false
  | String c EmptyString => is_sep c
  | String _ path => endswith_sep path
  end.

(** One turn of the loop of [posixpath.join]. *)
Definition join_step (path b : string) : string :=
  if startswith_sep b then b
  else if bool_decide (path = EmptyString) || endswith_sep path then path +:+ b
  else path +:+ "/" +:+ b.

(** [os.path.join(a, *p)] *)
Definition os_path_join (a : string) (p : list string) : string :=
  foldl join_step a p.

Fixpoint has_sep (s : string) : bool :=
  match s with
  | EmptyString => false
  | String c s => is_sep c || has_sep s
  end.

(** [os.path.basename(p)]: what follows the last ['/'] of [p]. *)
Fixpoint basename (p : string) : string :=
  match p with
  | EmptyString => EmptyString
  | String c rest =>
      if has_sep rest then basename rest
      else if is_sep c then rest
      else p
  end.

(** What [_touch_device] sees of the file system: the paths that
    [glob.glob("/sys/class/input/event*")] returns, and for a path what
    opening it for reading and reading it gives, an [IOError] with its
    [errno] or the text of the file. *)
Inductive read_result :=
| IOError (errno : Z)
| Text (content : string).

Record sysfs := Sysfs {
  glob_events : list string;
  read_text : string → read_result
}.

(** How [_touch_device] ends: it returns a path, or falls off its end and
    returns [None], or raises. *)
Inductive lookup :=
| Returns (path : option string)
| RaisesIOError (errno : Z)
| RaisesRuntimeError.

(** The body of the [for] loop for one [evdev].  Its last statement is the
    [raise RuntimeError], which stands inside the loop: every way through
    the body leaves the function. *)
Definition touch_device_turn (fs : sysfs) (evdev : string) : lookup :=
  match read_text fs (os_path_join evdev ["device"; "name"]) with
  | Text content =>
      if bool_decide (strip content = TOUCHSCREEN_EVDEV_NAME) then
        Returns (Some (os_path_join "/dev" ["input"; basename evdev]))
      else RaisesRuntimeError
  | IOError errno =>
      if bool_decide (errno ≠ ENOENT) then RaisesIOError errno
      else RaisesRuntimeError
  end.

(** [_touch_device(self)] *)
Definition _touch_device (fs : sysfs) : lookup :=
  match glob_events fs with
  | [] => Returns None
  | evdev :: _ => touch_device_turn fs evdev
  end.

(** Text made of whitespace only. *)
Fixpoint blank (s : string) : bool :=
  match s with
  | EmptyString => true
  | String c s => isspace c && blank s
  end.

(** The name file of an [evdev] directory. *)
Definition name_file (evdev : string) : string :=
  os_path_join evdev ["device"; "name"].

(** A file system where the touchscreen is the second event device, after
    a keyboard; its name file ends with a newline. *)
Definition touchscreen_listed_second : sysfs :=
  Sysfs ["/sys/class/input/event0"; "/sys/class/input/event1"]
        (λ path,
           if bool_decide (path = "/sys/class/input/event0/device/name")
           then Text ("gpio-keys" +:+ String (ascii_of_nat 10) EmptyString)
           else if bool_decide (path = "/sys/class/input/event1/device/name")
           then Text (TOUCHSCREEN_EVDEV_NAME +:+ String (ascii_of_nat 10) EmptyString)
           else IOError ENOENT).

(** The first frame of a contact on slot 2, as events, and the barrier
    that ends it. *)
Definition contact_down : list TouchEvent :=
  [mkTouchEvent (0, 0) EV_ABS ABS_MT_SLOT 2;
   mkTouchEvent (0, 0) EV_ABS ABS_MT_TRACKING_ID 10;
   mkTouchEvent (0, 0) 4 4 589825;
   mkTouchEvent (0, 0) EV_ABS ABS_MT_POSITION_X 100;
   mkTouchEvent (0, 0) EV_ABS ABS_MT_POSITION_Y 200].
Definition barrier : TouchEvent := mkTouchEvent (0, 0) EV_SYN 0 0.

(** ** The demonstration under [__main__] *)

(** [l[i]] *)
Definition getitem {A} (l : list A) (i : Z) : result A :=
  match subscript (length l) i with
  | Ok n =>
      match l !! n with
      | Some a => Ok a
      | None => Raise IndexError
      end
  | Raise e => Raise e
  end.

(** [handle_event(event, touch)]: the four values that it prints, or the
    exception of the subscript. *)
Definition handle_event (event : Z) (touch : Touch.t)
  : result (string * Z * Z * Z) :=
  match getitem ["Release"; "Press"; "Move"] event with
  | Ok label => Ok (label, Touch.slot touch, Touch.x touch, Touch.y touch)
  | Raise e => Raise e
  end.

(** * Properties *)

(** ** The setters *)

Section TouchLemmas.

Implicit Types (t : Touch.t) (v e : Z).

Lemma events_append e t :
  Touch.events (Touch.append e t) = Touch.events t ++ [e].
Proof. reflexivity. Qed.

Lemma NoDup_snoc_fresh (l : list Z) e : NoDup l → e ∉ l → NoDup (l ++ [e]).
Proof.
  intros Hl He. apply NoDup_app. split_and!; [done | | apply NoDup_singleton].
  intros z Hz ->%list_elem_of_singleton. contradiction.
Qed.

(** The three cases of the id setter, on the pending events. *)
Lemma set_id_events v t :
  Touch.events (Touch.set_id v t) =
    if decide (v = Touch._id t) then Touch.events t
    else if decide (v = -1 ∧ TS_RELEASE ∉ Touch.events t)
         then Touch.events t ++ [TS_RELEASE]
    else if decide (TS_PRESS ∉ Touch.events t)
         then Touch.events t ++ [TS_PRESS]
    else Touch.events t.
Proof.
  unfold Touch.set_id. repeat case_decide; simpl; congruence.
Qed.

Lemma set_x_events v t :
  Touch.events (Touch.set_x v t) =
    if decide (v ≠ Touch._x t ∧ TS_MOVE ∉ Touch.events t)
    then Touch.events t ++ [TS_MOVE] else Touch.events t.
Proof. unfold Touch.set_x. case_decide; reflexivity. Qed.

Lemma set_y_events v t :
  Touch.events (Touch.set_y v t) =
    if decide (v ≠ Touch._y t ∧ TS_MOVE ∉ Touch.events t)
    then Touch.events t ++ [TS_MOVE] else Touch.events t.
Proof. unfold Touch.set_y. case_decide; reflexivity. Qed.

Lemma set_id_NoDup v t :
  NoDup (Touch.events t) → NoDup (Touch.events (Touch.set_id v t)).
Proof.
  intros Hnd. rewrite set_id_events.
  repeat case_decide; auto using NoDup_snoc_fresh.
  apply NoDup_snoc_fresh; tauto.
Qed.

Lemma set_x_NoDup v t :
  NoDup (Touch.events t) → NoDup (Touch.events (Touch.set_x v t)).
Proof.
  intros Hnd. rewrite set_x_events.
  case_decide; [apply NoDup_snoc_fresh; tauto | done].
Qed.

Lemma set_y_NoDup v t :
  NoDup (Touch.events t) → NoDup (Touch.events (Touch.set_y v t)).
Proof.
  intros Hnd. rewrite set_y_events.
  case_decide; [apply NoDup_snoc_fresh; tauto | done].
Qed.

Lemma apply_write_NoDup t w :
  NoDup (Touch.events t) → NoDup (Touch.events (apply_write t w)).
Proof.
  intros Hnd.
  destruct w; simpl; [apply set_id_NoDup | apply set_x_NoDup | apply set_y_NoDup];
    exact Hnd.
Qed.

Lemma apply_writes_NoDup ws t :
  NoDup (Touch.events t) → NoDup (Touch.events (apply_writes ws t)).
Proof.
  unfold apply_writes. revert t.
  induction ws as [|w ws IH]; intros t Hnd; simpl; [done|].
  apply IH, apply_write_NoDup, Hnd.
Qed.

Lemma filter_eq_absent (l : list Z) e : e ∉ l → filter (λ z, z = e) l = [].
Proof.
  induction l as [|z l IH]; [done|].
  intros [Hne Hl]%not_elem_of_cons. rewrite filter_cons.
  case_decide; [congruence | auto].
Qed.

(** In a list without duplicates every value is counted at most once. *)
Lemma NoDup_count_le_1 (l : list Z) e :
  NoDup l → (length (filter (λ z, z = e) l) ≤ 1)%nat.
Proof.
  induction 1 as [|z l Hz Hnd IH]; [simpl; lia|].
  rewrite filter_cons. case_decide as Heq; [|done].
  subst z. rewrite filter_eq_absent by done. simpl. lia.
Qed.

End TouchLemmas.

(** C2.  Assigning [v] to [id] appends nothing when [v] is the current id.
    When [v] differs from it, [TS_RELEASE] is appended if [v = -1] and no
    release is pending; otherwise [TS_PRESS] is appended if no press is
    pending, and nothing if one is.  In every case the id read back is [v],
    and the slot, the coordinates and the callbacks stay as they were. *)
Theorem set_id_appends_on_change (v : Z) (t : Touch.t) :
  (v = Touch.id t → Touch.events (Touch.set_id v t) = Touch.events t)
  ∧ (v ≠ Touch.id t → v = -1 → TS_RELEASE ∉ Touch.events t →
       Touch.events (Touch.set_id v t) = Touch.events t ++ [TS_RELEASE])
  ∧ (v ≠ Touch.id t → ¬ (v = -1 ∧ TS_RELEASE ∉ Touch.events t) →
       TS_PRESS ∉ Touch.events t →
       Touch.events (Touch.set_id v t) = Touch.events t ++ [TS_PRESS])
  ∧ (v ≠ Touch.id t → ¬ (v = -1 ∧ TS_RELEASE ∉ Touch.events t) →
       TS_PRESS ∈ Touch.events t →
       Touch.events (Touch.set_id v t) = Touch.events t)
  ∧ Touch.id (Touch.set_id v t) = v
  ∧ Touch.slot (Touch.set_id v t) = Touch.slot t
  ∧ Touch.position (Touch.set_id v t) = Touch.position t
  ∧ Touch.last_position (Touch.set_id v t) = Touch.last_position t
  ∧ Touch.on_move (Touch.set_id v t) = Touch.on_move t
  ∧ Touch.on_press (Touch.set_id v t) = Touch.on_press t
  ∧ Touch.on_release (Touch.set_id v t) = Touch.on_release t.
Proof.
  unfold Touch.id. rewrite set_id_events.
  split_and!; try (unfold Touch.set_id; repeat case_decide; reflexivity).
  - intros ->. by rewrite decide_True.
  - intros Hne -> Hrel. rewrite decide_False by done. by rewrite decide_True.
  - intros Hne Hnot Hpress. rewrite !decide_False by done. by rewrite decide_True.
  - intros Hne Hnot Hpress. rewrite !decide_False by done.
    rewrite decide_False; [done | tauto].
Qed.

(** C3.  Assigning [v] to [x] appends [TS_MOVE] exactly when [v] differs
    from the current [x] and no move is pending; [last_x] becomes the [x]
    from before the assignment whether or not [v] differs from it; and [x]
    reads back as [v].  The same holds of [y] and [last_y].  Neither setter
    changes the other coordinate, the id or anything else. *)
Theorem set_coordinate_records_move (v : Z) (t : Touch.t) :
  (* x *)
  (v ≠ Touch.x t ∧ TS_MOVE ∉ Touch.events t →
     Touch.events (Touch.set_x v t) = Touch.events t ++ [TS_MOVE])
  ∧ (¬ (v ≠ Touch.x t ∧ TS_MOVE ∉ Touch.events t) →
     Touch.events (Touch.set_x v t) = Touch.events t)
  ∧ Touch.last_x (Touch.set_x v t) = Touch.x t
  ∧ Touch.x (Touch.set_x v t) = v
  ∧ Touch.y (Touch.set_x v t) = Touch.y t
  ∧ Touch.last_y (Touch.set_x v t) = Touch.last_y t
  ∧ Touch.id (Touch.set_x v t) = Touch.id t
  (* y *)
  ∧ (v ≠ Touch.y t ∧ TS_MOVE ∉ Touch.events t →
     Touch.events (Touch.set_y v t) = Touch.events t ++ [TS_MOVE])
  ∧ (¬ (v ≠ Touch.y t ∧ TS_MOVE ∉ Touch.events t) →
     Touch.events (Touch.set_y v t) = Touch.events t)
  ∧ Touch.last_y (Touch.set_y v t) = Touch.y t
  ∧ Touch.y (Touch.set_y v t) = v
  ∧ Touch.x (Touch.set_y v t) = Touch.x t
  ∧ Touch.last_x (Touch.set_y v t) = Touch.last_x t
  ∧ Touch.id (Touch.set_y v t) = Touch.id t.
Proof.
  unfold Touch.x, Touch.y, Touch.id. rewrite set_x_events, set_y_events.
  split_and!;
    try (unfold Touch.set_x, Touch.set_y; repeat case_decide; reflexivity).
  - intros H. by rewrite decide_True.
  - intros H. by rewrite decide_False.
  - intros H. by rewrite decide_True.
  - intros H. by rewrite decide_False.
Qed.

(** An unchanged coordinate still overwrites [last_x]: after [x = 7] twice,
    [last_x] is 7 and not the 0 the touch started from. *)
Example set_x_same_value_overwrites_last_x :
  let t := Touch.set_x 7 (Touch.set_x 7 (Touch.init 0 0 0)) in
  Touch.last_x t = 7 ∧ Touch.x t = 7 ∧ Touch.events t = [TS_MOVE].
Proof. vm_compute. done. Qed.

(** A new touch has nothing pending. *)
Lemma new_touch_no_pending_events (slot x y : Z) :
  Touch.events (Touch.init slot x y) = []
  ∧ NoDup (Touch.events (Touch.init slot x y)).
Proof. split; [reflexivity | apply NoDup_nil_2]. Qed.

(** C4.  A pending-event list without duplicates stays without duplicates
    under every write to the id or to a coordinate, hence under every
    sequence of writes of a frame; so each of [TS_MOVE], [TS_PRESS] and
    [TS_RELEASE] is pending at most once at the barrier, however many writes
    there were.  The list is empty in a new touch
    ([new_touch_no_pending_events]) and after each dispatch, which is where
    a frame starts. *)
Theorem pending_events_no_duplicates (t : Touch.t) (ws : list write) :
  NoDup (Touch.events t) →
  (∀ w, NoDup (Touch.events (apply_write t w)))
  ∧ NoDup (Touch.events (apply_writes ws t))
  ∧ (length (filter (λ e, e = TS_MOVE) (Touch.events (apply_writes ws t))) ≤ 1)%nat
  ∧ (length (filter (λ e, e = TS_PRESS) (Touch.events (apply_writes ws t))) ≤ 1)%nat
  ∧ (length (filter (λ e, e = TS_RELEASE) (Touch.events (apply_writes ws t))) ≤ 1)%nat
  ∧ NoDup (Touch.events (snd (Touch.handle_events t))).
Proof.
  intros Hnd.
  pose proof (apply_writes_NoDup ws t Hnd) as Hws.
  split_and!; auto using apply_write_NoDup, NoDup_count_le_1.
  apply NoDup_nil_2.
Qed.

(** Five coordinate writes to a new touch leave one move pending. *)
Lemma pending_events_no_duplicates_witness :
  let t := Touch.init 3 0 0 in
  let ws := [WriteX 10; WriteY 20; WriteX 11; WriteX 10; WriteY 25] in
  Forall coordinate_write ws
  ∧ Touch.events (apply_writes ws t) = [TS_MOVE]
  ∧ NoDup (Touch.events (apply_writes ws t))
  ∧ (length (filter (λ e, e = TS_MOVE) (Touch.events (apply_writes ws t))) ≤ 1)%nat.
Proof.
  intros t ws.
  split; [repeat constructor|]. split; [reflexivity|].
  destruct (pending_events_no_duplicates t ws) as (_ & Hnd & Hmove & _).
  - simpl. constructor.
  - split; [exact Hnd | exact Hmove].
Defined.

(** ** Dispatch *)

Section DispatchLemmas.

Implicit Types (t : Touch.t) (e : Z) (l : list Z).

(** At most one of the three tests of the loop body succeeds. *)
Lemma handle_event_callback t e :
  Touch.handle_event t e = Touch.invoke (callback_for t e) e t.
Proof.
  unfold Touch.handle_event, callback_for, TS_MOVE, TS_PRESS, TS_RELEASE.
  repeat case_decide; subst; try discriminate; simpl;
    rewrite ?app_nil_r; reflexivity.
Qed.

Lemma handle_event_arg_event t e c :
  c ∈ Touch.handle_event t e → Touch.arg_event c = e ∧ Touch.arg_touch c = t.
Proof.
  rewrite handle_event_callback. unfold Touch.invoke.
  destruct (callback_for t e); [|by intros ?%elem_of_nil].
  by intros ->%list_elem_of_singleton.
Qed.

Lemma dispatched_events_filter t l :
  map Touch.arg_event (flat_map (Touch.handle_event t) l)
  = filter (λ e, is_Some (callback_for t e)) l.
Proof.
  induction l as [|e l IH]; [done|].
  simpl. rewrite map_app, IH, filter_cons, handle_event_callback.
  destruct (callback_for t e) as [f|]; reflexivity.
Qed.

(** Keeping the calls for some kinds of event is dispatching only the
    pending events of those kinds. *)
Lemma handle_events_filter (Q : Z → Prop) `{!∀ e, Decision (Q e)} t l :
  filter (λ c, Q (Touch.arg_event c)) (flat_map (Touch.handle_event t) l)
  = flat_map (Touch.handle_event t) (filter Q l).
Proof.
  induction l as [|e l IH]; [done|].
  simpl. rewrite filter_app, IH, (filter_cons Q).
  assert (filter (λ c, Q (Touch.arg_event c)) (Touch.handle_event t e)
          = if decide (Q e) then Touch.handle_event t e else []) as ->.
  { rewrite handle_event_callback. unfold Touch.invoke.
    destruct (callback_for t e) as [f|]; [|by case_decide].
    rewrite filter_cons, filter_nil. simpl. by repeat case_decide. }
  by case_decide.
Qed.

End DispatchLemmas.

(** C1, as the code has it.  [handle_events] walks the pending events in
    the order they were appended: the calls are, in that order, one call
    [f(event, touch)] for each pending event whose attribute holds a callable
    [f], so the events reach the callbacks in insertion order; the list is
    empty afterwards and nothing else of the touch changes. *)
Theorem handle_events_insertion_order (t : Touch.t) :
  fst (Touch.handle_events t)
  = omap (λ e, (λ f, Touch.Call f e t) <$> callback_for t e) (Touch.events t)
  ∧ dispatched_events t
    = filter (λ e, is_Some (callback_for t e)) (Touch.events t)
  ∧ Touch.events (snd (Touch.handle_events t)) = []
  ∧ Touch.id (snd (Touch.handle_events t)) = Touch.id t
  ∧ Touch.position (snd (Touch.handle_events t)) = Touch.position t.
Proof.
  split_and!; try reflexivity.
  - simpl. induction (Touch.events t) as [|e l IH]; [done|].
    simpl. rewrite IH, handle_event_callback.
    by destruct (callback_for t e).
  - apply dispatched_events_filter.
Qed.

(** C1 fails as stated: a touch pressed and then moved within one frame has
    two pending events, and [on_press] is called before [on_move], where the
    fixed order would call [on_move] first. *)
Lemma dispatch_follows_appends_not_fixed_order :
  (1 < length (Touch.events pressed_then_moved))%nat
  ∧ dispatched_events pressed_then_moved = [TS_PRESS; TS_MOVE]
  ∧ spec_fixed_order pressed_then_moved = [TS_MOVE; TS_PRESS]
  ∧ dispatched_events pressed_then_moved ≠ spec_fixed_order pressed_then_moved.
Proof. vm_compute. split_and!; (lia || done). Qed.

Section FrameLemmas.

Implicit Types (t : Touch.t) (ws : list write).

Lemma apply_writes_app ws1 ws2 t :
  apply_writes (ws1 ++ ws2) t = apply_writes ws2 (apply_writes ws1 t).
Proof. unfold apply_writes. apply foldl_app. Qed.

Lemma apply_writes_cons w ws t :
  apply_writes (w :: ws) t = apply_writes ws (apply_write t w).
Proof. reflexivity. Qed.

(** The callbacks are attributes that no setter assigns. *)
Lemma apply_write_callbacks t w :
  Touch.on_move (apply_write t w) = Touch.on_move t
  ∧ Touch.on_press (apply_write t w) = Touch.on_press t
  ∧ Touch.on_release (apply_write t w) = Touch.on_release t.
Proof.
  destruct w; simpl;
    unfold Touch.set_id, Touch.set_x, Touch.set_y;
    repeat case_decide; done.
Qed.

Lemma apply_writes_callbacks ws t :
  Touch.on_move (apply_writes ws t) = Touch.on_move t
  ∧ Touch.on_press (apply_writes ws t) = Touch.on_press t
  ∧ Touch.on_release (apply_writes ws t) = Touch.on_release t.
Proof.
  revert t. induction ws as [|w ws IH]; intros t; [done|].
  rewrite apply_writes_cons.
  destruct (IH (apply_write t w)) as (-> & -> & ->).
  apply apply_write_callbacks.
Qed.

(** Coordinate writes keep the id and add at most moves to the pending
    events. *)
Lemma coordinate_writes_events ws t :
  Forall coordinate_write ws →
  Touch._id (apply_writes ws t) = Touch._id t
  ∧ ∃ ms, Touch.events (apply_writes ws t) = Touch.events t ++ ms
          ∧ Forall (λ e, e = TS_MOVE) ms.
Proof.
  intros Hws. revert t.
  induction Hws as [|w ws Hw Hws IH]; intros t.
  { split; [done|]. exists []. by rewrite app_nil_r. }
  rewrite apply_writes_cons.
  destruct (IH (apply_write t w)) as (-> & ms & -> & Hms).
  destruct w as [v|v|v]; [done| |]; cbn [apply_write].
  - split; [by unfold Touch.set_x; case_decide|].
    rewrite set_x_events. case_decide.
    + exists (TS_MOVE :: ms). rewrite <-app_assoc. by split; [|constructor].
    + by exists ms.
  - split; [by unfold Touch.set_y; case_decide|].
    rewrite set_y_events. case_decide.
    + exists (TS_MOVE :: ms). rewrite <-app_assoc. by split; [|constructor].
    + by exists ms.
Qed.

Lemma moves_not_elem (ms : list Z) e :
  Forall (λ z, z = TS_MOVE) ms → e ≠ TS_MOVE → e ∉ ms.
Proof.
  intros Hms Hne Hin. rewrite Forall_forall in Hms.
  apply Hms in Hin. contradiction.
Qed.

Lemma filter_absent (Q : Z → Prop) `{!∀ e, Decision (Q e)} (l : list Z) :
  (∀ e, e ∈ l → ¬ Q e) → filter Q l = [].
Proof.
  induction l as [|z l IH]; intros Hl; [done|].
  rewrite filter_cons, decide_False.
  - apply IH. intros e He. apply Hl. by right.
  - apply Hl. by left.
Qed.

End FrameLemmas.

Section PressRelease.

Implicit Types (t : Touch.t) (v : Z).

Lemma set_id_press v t :
  Touch._id t = -1 → v ≠ -1 → TS_PRESS ∉ Touch.events t →
  Touch.events (Touch.set_id v t) = Touch.events t ++ [TS_PRESS]
  ∧ Touch._id (Touch.set_id v t) = v.
Proof.
  intros Hid Hv Hp. split; [|by unfold Touch.set_id; repeat case_decide].
  rewrite set_id_events, Hid.
  rewrite decide_False by done.
  rewrite decide_False by (intros [? _]; done).
  by rewrite decide_True.
Qed.

Lemma set_id_release t :
  Touch._id t ≠ -1 → TS_RELEASE ∉ Touch.events t →
  Touch.events (Touch.set_id (-1) t) = Touch.events t ++ [TS_RELEASE]
  ∧ Touch._id (Touch.set_id (-1) t) = -1.
Proof.
  intros Hid Hr. split; [|by unfold Touch.set_id; repeat case_decide].
  rewrite set_id_events.
  rewrite decide_False by done.
  by rewrite decide_True.
Qed.

Lemma filter_moves (ms : list Z) :
  Forall (λ e, e = TS_MOVE) ms → filter press_or_release ms = [].
Proof.
  intros Hms. apply filter_absent. intros e He.
  rewrite Forall_forall in Hms. rewrite (Hms e He).
  unfold press_or_release, TS_MOVE, TS_PRESS, TS_RELEASE. lia.
Qed.

End PressRelease.

(** C6.  Take a touch with no contact ([id = -1]) and neither a press nor a
    release pending, as every touch is when a frame starts from [id = -1].
    Let the frame set its id to [v] other than -1 (5, say) and then back to
    -1, with any coordinate writes before, between and after.  At the
    barrier press and release are both pending, press first; dispatch calls
    [on_press] and then [on_release] (each when it is callable), and the
    touch is not valid afterwards. *)
Theorem press_then_release_in_one_frame
    (t : Touch.t) (v : Z) (ws1 ws2 ws3 : list write) :
  Touch.id t = -1 → v ≠ -1 →
  TS_PRESS ∉ Touch.events t → TS_RELEASE ∉ Touch.events t →
  Forall coordinate_write ws1 → Forall coordinate_write ws2 →
  Forall coordinate_write ws3 →
  let t' := apply_writes (ws1 ++ WriteId v :: ws2 ++ WriteId (-1) :: ws3) t in
  TS_PRESS ∈ Touch.events t' ∧ TS_RELEASE ∈ Touch.events t'
  ∧ filter press_or_release (Touch.events t') = [TS_PRESS; TS_RELEASE]
  ∧ filter (λ c, press_or_release (Touch.arg_event c))
           (fst (Touch.handle_events t'))
    = Touch.invoke (Touch.on_press t) TS_PRESS t'
      ++ Touch.invoke (Touch.on_release t) TS_RELEASE t'
  ∧ Touch.valid (snd (Touch.handle_events t')) = false
  ∧ Touch.events (snd (Touch.handle_events t')) = [].
Proof.
  intros Hid Hv Hp Hr H1 H2 H3 t'.
  unfold Touch.id in Hid.
  (* the five stages of the frame *)
  destruct (coordinate_writes_events ws1 t H1) as (Hid1 & m1 & He1 & Hm1).
  set (t1 := apply_writes ws1 t) in *.
  destruct (set_id_press v t1) as (He2 & Hid2); [congruence | done | |].
  { rewrite He1. apply not_elem_of_app. split; [done|].
    by apply moves_not_elem. }
  set (t2 := Touch.set_id v t1) in *.
  destruct (coordinate_writes_events ws2 t2 H2) as (Hid3 & m2 & He3 & Hm3).
  set (t3 := apply_writes ws2 t2) in *.
  destruct (set_id_release t3) as (He4 & Hid4); [congruence | |].
  { rewrite He3, He2, He1. rewrite !not_elem_of_app. split_and!; try done.
    - by apply moves_not_elem.
    - by intros ?%list_elem_of_singleton.
    - by apply moves_not_elem. }
  set (t4 := Touch.set_id (-1) t3) in *.
  destruct (coordinate_writes_events ws3 t4 H3) as (Hid5 & m3 & He5 & Hm5).
  assert (t' = apply_writes ws3 t4) as Ht'.
  { unfold t'. rewrite apply_writes_app, apply_writes_cons.
    by rewrite apply_writes_app, apply_writes_cons. }
  assert (Touch.events t'
          = Touch.events t ++ m1 ++ [TS_PRESS] ++ m2 ++ [TS_RELEASE] ++ m3) as Hev.
  { rewrite Ht', He5, He4, He3, He2, He1. by rewrite <-!app_assoc. }
  assert (filter press_or_release (Touch.events t') = [TS_PRESS; TS_RELEASE]) as Hf.
  { rewrite Hev, !filter_app.
    rewrite (filter_moves m1), (filter_moves m2), (filter_moves m3) by done.
    rewrite (filter_absent _ (Touch.events t)).
    - reflexivity.
    - intros e He [-> | ->]; contradiction. }
  split_and!.
  - rewrite Hev, !elem_of_app. right; right; left. by apply list_elem_of_singleton.
  - rewrite Hev, !elem_of_app. do 4 right. left. by apply list_elem_of_singleton.
  - exact Hf.
  - simpl. rewrite handle_events_filter, Hf. simpl.
    rewrite !handle_event_callback, app_nil_r.
    unfold callback_for, TS_MOVE, TS_PRESS, TS_RELEASE. simpl.
    destruct (apply_writes_callbacks
                (ws1 ++ WriteId v :: ws2 ++ WriteId (-1) :: ws3) t)
      as (_ & Hcp & Hcr).
    fold t' in Hcp, Hcr. rewrite Hcp, Hcr. reflexivity.
  - unfold Touch.valid, Touch.id. simpl. rewrite Ht', Hid5, Hid4. reflexivity.
  - reflexivity.
Qed.

(** The frame [id = 5; id = -1] on a new touch with its callbacks assigned:
    [on_press] (handler 2) is called before [on_release] (handler 3). *)
Lemma press_then_release_in_one_frame_witness :
  let t := with_callbacks 1%nat 2%nat 3%nat (Touch.init 0 0 0) in
  let t' := apply_writes [WriteId 5; WriteId (-1)] t in
  Touch.events t' = [TS_PRESS; TS_RELEASE]
  ∧ map Touch.callee (fst (Touch.handle_events t')) = [2%nat; 3%nat]
  ∧ (filter press_or_release (Touch.events t') = [TS_PRESS; TS_RELEASE]
     ∧ Touch.valid (snd (Touch.handle_events t')) = false).
Proof.
  intros t t'. split; [reflexivity|]. split; [reflexivity|].
  destruct (press_then_release_in_one_frame t 5 [] [] [])
    as (_ & _ & Hf & _ & Hvalid & _).
  - reflexivity.
  - lia.
  - simpl. apply not_elem_of_nil.
  - simpl. apply not_elem_of_nil.
  - constructor.
  - constructor.
  - constructor.
  - split; [exact Hf | exact Hvalid].
Defined.

(** The frame of C6 is one that the slot enters with [id = -1].  A slot
    that enters the frame in contact (id 3) and is lifted, pressed and
    lifted again has its release pending first: the second lift appends
    nothing, and [on_release] is called before [on_press]. *)
Example lifted_then_pressed_in_one_frame :
  let t := Touch.set_id 3 (with_callbacks 1%nat 2%nat 3%nat (Touch.init 0 0 0)) in
  let t' := apply_writes [WriteId (-1); WriteId 5; WriteId (-1)]
                         (snd (Touch.handle_events t)) in
  Touch.events t' = [TS_RELEASE; TS_PRESS]
  ∧ dispatched_events t' = [TS_RELEASE; TS_PRESS]
  ∧ Touch.valid (snd (Touch.handle_events t')) = false.
Proof. vm_compute. done. Qed.

(** ** Reading records *)

Section ReadLemmas.

Variable p : platform.
Implicit Types (self : Touchscreen.t) (bs : list byte).

Lemma calcsize_pos : (16 ≤ calcsize p)%nat.
Proof. unfold calcsize, sizeof_long. destruct (longs p); lia. Qed.

Lemma unpack_wrong_length bs : length bs ≠ calcsize p → unpack p bs = None.
Proof. intros H. unfold unpack. by rewrite decide_False. Qed.

Lemma unpack_Some_length bs r : unpack p bs = Some r → length bs = calcsize p.
Proof. unfold unpack. by case_decide. Qed.

(** [read] takes the next [EVENT_SIZE] bytes off the device, whether or
    not they unpack, and touches nothing else. *)
Lemma read_unfold self :
  Touchscreen.read p self =
    (match unpack p (take (Touchscreen.EVENT_SIZE p) (Touchscreen._f_device self)) with
     | Some (tv_sec, tv_usec, type, code, value) =>
         Ok (mkTouchEvent (tv_sec, tv_usec) type code value)
     | None => Raise struct_error
     end,
     Touchscreen.set_f_device
       (drop (Touchscreen.EVENT_SIZE p) (Touchscreen._f_device self)) self).
Proof.
  unfold Touchscreen.read, bind, Touchscreen.device_read.
  destruct (unpack p _) as [[[[[tv_sec tv_usec] type] code] value]|];
    reflexivity.
Qed.

Lemma read_final self :
  snd (Touchscreen.read p self)
  = Touchscreen.set_f_device
      (drop (Touchscreen.EVENT_SIZE p) (Touchscreen._f_device self)) self.
Proof. by rewrite read_unfold. Qed.

(** A record that unpacks was a whole record: the device had that many
    bytes, and has that many fewer afterwards. *)
Lemma read_Ok_length self event self' :
  Touchscreen.read p self = (Ok event, self') →
  (Touchscreen.EVENT_SIZE p ≤ length (Touchscreen._f_device self))%nat
  ∧ (length (Touchscreen._f_device self')
     < length (Touchscreen._f_device self))%nat.
Proof.
  rewrite read_unfold. intros [= Hev <-].
  destruct (unpack p _) as [r|] eqn:Hun; [|discriminate].
  apply unpack_Some_length in Hun. rewrite length_take in Hun.
  unfold Touchscreen.EVENT_SIZE in *. pose proof calcsize_pos.
  simpl. rewrite length_drop. lia.
Qed.

End ReadLemmas.

(** ** The record format: what the kernel writes, [unpack] reads *)

Section RecordFormat.

Variable p : platform.
Implicit Types (z : Z) (n : nat) (bs : list byte).

Lemma le_bytes_S n z :
  le_bytes (S n) z
  = default x00 (Byte.of_N (Z.to_N (z mod 256))) :: le_bytes n (z / 256).
Proof.
  unfold le_bytes. cbn [seq map]. f_equal.
  - by rewrite Z.mul_0_r, Z.pow_0_r, Z.div_1_r.
  - rewrite <-seq_shift, map_map. apply map_ext. intros i.
    do 4 f_equal. rewrite Nat2Z.inj_succ, Z.mul_succ_r, Z.add_comm.
    rewrite Z.pow_add_r by lia. rewrite Z.div_div by lia. done.
Qed.

Lemma length_le_bytes n z : length (le_bytes n z) = n.
Proof. unfold le_bytes. by rewrite length_map, length_seq. Qed.

Lemma byte_of_mod_256 z :
  Z.of_N (Byte.to_N (default x00 (Byte.of_N (Z.to_N (z mod 256))))) = z mod 256.
Proof.
  pose proof (Z.mod_pos_bound z 256 eq_refl) as Hb.
  destruct (Byte.of_N (Z.to_N (z mod 256))) as [b|] eqn:Hof; simpl.
  - apply Byte.to_of_N in Hof. rewrite Hof. apply Z2N.id. lia.
  - apply Byte.of_N_None_iff in Hof. lia.
Qed.

(** The bytes of [z] read back as [z] modulo the width. *)
Lemma le_uint_le_bytes n z :
  le_uint (le_bytes n z) = z mod 2 ^ (8 * Z.of_nat n).
Proof.
  revert z. induction n as [|n IH]; intros z.
  { simpl. by rewrite Z.mod_1_r. }
  rewrite le_bytes_S. cbn [le_uint fold_right]. fold (le_uint (le_bytes n (z / 256))).
  rewrite IH, byte_of_mod_256.
  replace (8 * Z.of_nat (S n)) with (8 + 8 * Z.of_nat n) by lia.
  rewrite Z.pow_add_r by lia. change (2 ^ 8) with 256.
  rewrite Z.rem_mul_r by lia. done.
Qed.

Lemma length_field n z : length (field p n z) = n.
Proof.
  unfold field. destruct (order p); by rewrite ?length_rev, length_le_bytes.
Qed.

Lemma unpack_uint_field n z :
  0 ≤ z < 2 ^ (8 * Z.of_nat n) → unpack_uint p (field p n z) = z.
Proof.
  intros Hz. unfold unpack_uint, field.
  destruct (order p); rewrite ?rev_involutive, le_uint_le_bytes;
    by apply Z.mod_small.
Qed.

Lemma unpack_int_field n z :
  (0 < n)%nat →
  - 2 ^ (8 * Z.of_nat n - 1) ≤ z < 2 ^ (8 * Z.of_nat n - 1) →
  unpack_int p (field p n z) = z.
Proof.
  intros Hn Hz. unfold unpack_int. rewrite length_field.
  assert (unpack_uint p (field p n z) = z mod 2 ^ (8 * Z.of_nat n)) as ->.
  { unfold unpack_uint, field.
    destruct (order p); by rewrite ?rev_involutive, le_uint_le_bytes. }
  assert (2 ^ (8 * Z.of_nat n) = 2 * 2 ^ (8 * Z.of_nat n - 1)) as Hpow.
  { rewrite <-Z.pow_succ_r by lia. f_equal. lia. }
  assert (0 < 2 ^ (8 * Z.of_nat n - 1)) by (apply Z.pow_pos_nonneg; lia).
  destruct (decide (0 ≤ z)).
  - rewrite Z.mod_small by lia. by rewrite decide_True by lia.
  - assert (z mod 2 ^ (8 * Z.of_nat n) = z + 2 ^ (8 * Z.of_nat n)) as ->.
    { symmetry. apply Z.mod_unique_pos with (q := -1); lia. }
    rewrite decide_False by lia. lia.
Qed.

Lemma pack_fields tv_sec tv_usec ty co va :
  pack p tv_sec tv_usec ty co va
  = field p (sizeof_long p) tv_sec ++ field p (sizeof_long p) tv_usec
    ++ field p 2 ty ++ field p 2 co ++ field p 4 va.
Proof. reflexivity. Qed.

Lemma length_pack tv_sec tv_usec ty co va :
  length (pack p tv_sec tv_usec ty co va) = calcsize p.
Proof.
  rewrite pack_fields, !length_app, !length_field. unfold calcsize. lia.
Qed.

Lemma slice_app_l n bs bs' : length bs = n → slice 0 n (bs ++ bs') = bs.
Proof. intros <-. unfold slice. simpl. apply take_app_length. Qed.

Lemma slice_app_r off n bs0 bs :
  length bs0 = off → slice off n (bs0 ++ bs) = slice 0 n bs.
Proof. intros <-. unfold slice. by rewrite drop_app_length. Qed.

(** Values that fit their fields are read back by [unpack]. *)
Lemma unpack_pack tv_sec tv_usec ty co va :
  fits p tv_sec tv_usec ty co va →
  unpack p (pack p tv_sec tv_usec ty co va)
  = Some (tv_sec, tv_usec, ty, co, va).
Proof.
  intros (Hs & Hu & Ht & Hc & Hv).
  unfold unpack. rewrite decide_True by apply length_pack.
  assert (0 < sizeof_long p)%nat by (unfold sizeof_long; destruct (longs p); lia).
  rewrite pack_fields. set (w := sizeof_long p) in *.
  rewrite slice_app_l by apply length_field.
  rewrite (slice_app_r w) by apply length_field.
  rewrite slice_app_l by apply length_field.
  rewrite !(app_assoc (field p w tv_sec)).
  rewrite (slice_app_r (w + w)) by (by rewrite length_app, !length_field).
  rewrite slice_app_l by apply length_field.
  rewrite !(app_assoc (field p w tv_sec ++ field p w tv_usec)).
  rewrite (slice_app_r (w + w + 2)) by (by rewrite !length_app, !length_field).
  rewrite slice_app_l by apply length_field.
  rewrite !(app_assoc ((field p w tv_sec ++ field p w tv_usec) ++ field p 2 ty)).
  rewrite (slice_app_r (w + w + 4)) by (rewrite !length_app, !length_field; lia).
  unfold slice. rewrite drop_0, <-(length_field 4 va) at 1. rewrite firstn_all.
  rewrite (unpack_int_field w tv_sec), (unpack_int_field w tv_usec) by done.
  rewrite (unpack_uint_field 2 ty), (unpack_uint_field 2 co) by done.
  rewrite (unpack_int_field 4 va); [done | lia | done].
Qed.

(** A record on the device is the event that [read] returns. *)
Lemma read_pack (self : Touchscreen.t) tv_sec tv_usec ty co va (rest : list byte) :
  fits p tv_sec tv_usec ty co va →
  Touchscreen._f_device self = pack p tv_sec tv_usec ty co va ++ rest →
  Touchscreen.read p self
  = (Ok (mkTouchEvent (tv_sec, tv_usec) ty co va),
     Touchscreen.set_f_device rest self).
Proof.
  intros Hfits Hdev. rewrite read_unfold, Hdev.
  unfold Touchscreen.EVENT_SIZE. rewrite <-(length_pack tv_sec tv_usec ty co va).
  rewrite take_app_length, drop_app_length. by rewrite unpack_pack.
Qed.

End RecordFormat.

(** ** One record *)

Section RecordLemmas.

Implicit Types (self : Touchscreen.t) (event : TouchEvent).

Lemma set_current_touch_unfold f self :
  Touchscreen.set_current_touch f self =
    match subscript (length (Touchscreen.touches self))
                    (Touchscreen._touch_slot self) with
    | Ok i => (Ok tt, Touchscreen.set_touches
                        (alter f i (Touchscreen.touches self)) self)
    | Raise e => (Raise e, self)
    end.
Proof.
  unfold Touchscreen.set_current_touch, Touchscreen._current_touch, bind.
  by destruct (subscript _ _).
Qed.

(** The codes are all different, so the six tests of the [EV_ABS] branch
    select at most one assignment. *)
Lemma poll_abs_cases event self :
  Touchscreen.poll_abs event self =
    if decide (code event = ABS_MT_SLOT) then
      (Ok tt, Touchscreen.set_touch_slot (value event) self)
    else if decide (code event = ABS_MT_TRACKING_ID) then
      Touchscreen.set_current_touch (Touch.set_id (value event)) self
    else if decide (code event = ABS_MT_POSITION_X) then
      Touchscreen.set_current_touch (Touch.set_x (value event)) self
    else if decide (code event = ABS_MT_POSITION_Y) then
      Touchscreen.set_current_touch (Touch.set_y (value event)) self
    else if decide (code event = ABS_X) then
      (Ok tt, Touchscreen.set_position (Touch.set_x (value event)) self)
    else if decide (code event = ABS_Y) then
      (Ok tt, Touchscreen.set_position (Touch.set_y (value event)) self)
    else (Ok tt, self).
Proof.
  unfold Touchscreen.poll_abs, when, bind, modify, ret.
  unfold ABS_MT_SLOT, ABS_MT_TRACKING_ID, ABS_MT_POSITION_X,
    ABS_MT_POSITION_Y, ABS_X, ABS_Y.
  repeat case_decide; repeat case_bool_decide; try lia;
    try reflexivity;
    rewrite set_current_touch_unfold; by destruct (subscript _ _).
Qed.

End RecordLemmas.

Section RecordFrame.

Implicit Types (self : Touchscreen.t) (event : TouchEvent).

Lemma same_frame_refl self : same_frame self self.
Proof. by repeat split. Qed.

Lemma position_kept_refl self : position_kept self self.
Proof. by repeat split. Qed.

Lemma position_kept_eq self self' :
  Touchscreen.position self' = Touchscreen.position self →
  position_kept self self'.
Proof. intros H. unfold position_kept. by rewrite H. Qed.

Lemma position_kept_trans self1 self2 self3 :
  position_kept self1 self2 → position_kept self2 self3 →
  position_kept self1 self3.
Proof.
  intros (Hp1 & Hi1 & Hm1 & Hq1 & Hr1) (Hp2 & Hi2 & Hm2 & Hq2 & Hr2).
  split_and!; [by etrans | congruence..].
Qed.

Lemma set_current_touch_frame f self r self' :
  Touchscreen.set_current_touch f self = (r, self') →
  same_frame self self'
  ∧ Touchscreen.position self' = Touchscreen.position self
  ∧ Touchscreen._touch_slot self' = Touchscreen._touch_slot self
  ∧ (∀ e, r = Raise e → e = IndexError ∧ self' = self).
Proof.
  rewrite set_current_touch_unfold. unfold subscript.
  repeat case_decide; intros [= <- <-];
    (split_and!; [repeat split; simpl; by rewrite ?length_alter
                 | done | done | intros e [= <-]; done || done]).
Qed.

Lemma set_x_position_kept v self :
  position_kept self (Touchscreen.set_position (Touch.set_x v) self).
Proof.
  unfold position_kept.
  cbn [Touchscreen.position Touchscreen.set_position].
  rewrite set_x_events.
  split_and!; try (unfold Touch.set_x; by repeat case_decide).
  case_decide; [by apply prefix_app_r | done].
Qed.

Lemma set_y_position_kept v self :
  position_kept self (Touchscreen.set_position (Touch.set_y v) self).
Proof.
  unfold position_kept.
  cbn [Touchscreen.position Touchscreen.set_position].
  rewrite set_y_events.
  split_and!; try (unfold Touch.set_y; by repeat case_decide).
  case_decide; [by apply prefix_app_r | done].
Qed.

(** A record of type [EV_ABS] keeps the device and the flags, never
    clears the events of [position], and can only fail with [IndexError],
    in which case it has changed nothing. *)
Lemma poll_abs_frame event self r self' :
  Touchscreen.poll_abs event self = (r, self') →
  same_frame self self' ∧ position_kept self self'
  ∧ (∀ e, r = Raise e → e = IndexError ∧ self' = self).
Proof.
  rewrite poll_abs_cases. repeat case_decide.
  - intros [= <- <-]. split_and!; [by repeat split | by repeat split | done].
  - intros (? & Hpos & _ & ?)%set_current_touch_frame.
    split_and!; [done | | done]. unfold position_kept. rewrite Hpos. by repeat split.
  - intros (? & Hpos & _ & ?)%set_current_touch_frame.
    split_and!; [done | | done]. unfold position_kept. rewrite Hpos. by repeat split.
  - intros (? & Hpos & _ & ?)%set_current_touch_frame.
    split_and!; [done | | done]. unfold position_kept. rewrite Hpos. by repeat split.
  - intros [= <- <-].
    split_and!; [by repeat split | apply set_x_position_kept | done].
  - intros [= <- <-].
    split_and!; [by repeat split | apply set_y_position_kept | done].
  - intros [= <- <-].
    split_and!; [apply same_frame_refl | apply position_kept_refl | done].
Qed.

(** The barrier clears every touch and calls, slot by slot, what
    [handle_events] calls. *)
Lemma dispatch_unfold i (l : list Touch.t) :
  Touchscreen.dispatch i l
  = (mjoin (imap (λ j touch, map (pair (SlotRef (i + j)))
                                  (fst (Touch.handle_events touch))) l),
     map Touch.clear l).
Proof.
  revert i. induction l as [|touch l IH]; intros i; [done|].
  simpl. rewrite IH, Nat.add_0_r. f_equal. f_equal. f_equal.
  apply imap_ext. intros j x _. simpl. by rewrite Nat.add_succ_r.
Qed.

Lemma dispatch_0 (l : list Touch.t) :
  Touchscreen.dispatch 0 l = (barrier_calls l, map Touch.clear l).
Proof. apply dispatch_unfold. Qed.

Lemma cleared_events (l : list Touch.t) :
  Forall (λ touch, Touch.events touch = []) (map Touch.clear l).
Proof. apply Forall_forall. by intros t (t0 & -> & _)%list_elem_of_fmap. Qed.

(** Every call of the barrier is on a touch of the list. *)
Lemma barrier_calls_refs (l : list Touch.t) c :
  c ∈ barrier_calls l →
  ∃ i touch, l !! i = Some touch ∧ fst c = SlotRef i
             ∧ snd c ∈ fst (Touch.handle_events touch).
Proof.
  unfold barrier_calls. intros (cs & Hc & Hcs)%list_elem_of_join.
  apply elem_of_lookup_imap in Hcs as (i & touch & -> & Hi).
  apply list_elem_of_fmap in Hc as (c0 & -> & Hc0).
  by exists i, touch.
Qed.

End RecordFrame.

(** ** The loop of [poll] *)

Section PollLemmas.

Variable p : platform.
Implicit Types (self : Touchscreen.t) (event : TouchEvent) (fuel : nat).

(** One turn of the loop, with the barrier spelled out. *)
Lemma poll_loop_S fuel self :
  Touchscreen.poll_loop p (S fuel) self =
    if stopped self then Some (Touchscreen.Outcome (Ok None) [] self)
    else
      match Touchscreen.read p self with
      | (Raise e, self1) => Some (Touchscreen.Outcome (Raise e) [] self1)
      | (Ok event, self1) =>
          if decide (type event = EV_SYN) then
            Some (Touchscreen.Outcome
                    (Ok (Some (map Touch.clear (Touchscreen.touches self1))))
                    (barrier_calls (Touchscreen.touches self1))
                    (Touchscreen.set_touches
                       (map Touch.clear (Touchscreen.touches self1)) self1))
          else
            match (if decide (type event = EV_ABS)
                   then Touchscreen.poll_abs event self1
                   else (Ok tt, self1)) with
            | (Raise e, self2) => Some (Touchscreen.Outcome (Raise e) [] self2)
            | (Ok _, self2) => Touchscreen.poll_loop p fuel self2
            end
      end.
Proof.
  cbn [Touchscreen.poll_loop]. unfold stopped.
  destruct (_ && _); [done|].
  destruct (Touchscreen.read p self) as [[event|e] self1]; [|done].
  case_decide; [by rewrite dispatch_0|].
  unfold when, ret. case_bool_decide; by case_decide.
Qed.

(** The body of the loop after a record that is not a barrier keeps the
    device and the flags. *)
Lemma record_frame event self1 r self2 :
  (if decide (type event = EV_ABS)
   then Touchscreen.poll_abs event self1 else (Ok tt, self1)) = (r, self2) →
  same_frame self1 self2 ∧ position_kept self1 self2
  ∧ (∀ e, r = Raise e → e = IndexError ∧ self2 = self1).
Proof.
  case_decide; [apply poll_abs_frame|].
  intros [= <- <-].
  split_and!; [apply same_frame_refl | apply position_kept_refl | done].
Qed.

(** With more turns than the device has bytes the loop ends. *)
Lemma poll_loop_enough fuel self :
  (length (Touchscreen._f_device self) < fuel)%nat →
  ∃ o, Touchscreen.poll_loop p fuel self = Some o.
Proof.
  revert self. induction fuel as [|fuel IH]; intros self Hlen; [lia|].
  rewrite poll_loop_S. destruct (stopped self); [eauto|].
  destruct (Touchscreen.read p self) as [[event|e] self1] eqn:Hread; [|eauto].
  apply read_Ok_length in Hread as [_ Hlt].
  case_decide; [eauto|].
  destruct (if decide (type event = EV_ABS) then _ else _)
    as [[[]|e] self2] eqn:Hrec; [|eauto].
  apply record_frame in Hrec as ((Hdev & _) & _).
  apply IH. rewrite Hdev. lia.
Qed.

(** More turns than needed change nothing. *)
Lemma poll_loop_mono fuel fuel' self o :
  Touchscreen.poll_loop p fuel self = Some o → (fuel ≤ fuel')%nat →
  Touchscreen.poll_loop p fuel' self = Some o.
Proof.
  revert fuel' self. induction fuel as [|fuel IH]; intros fuel' self; [done|].
  destruct fuel' as [|fuel']; [lia|]. intros Hpoll Hle.
  rewrite poll_loop_S in *. destruct (stopped self); [done|].
  destruct (Touchscreen.read p self) as [[event|e] self1]; [|done].
  case_decide; [done|].
  destruct (if decide (type event = EV_ABS) then _ else _)
    as [[[]|e] self2]; [|done].
  apply IH; [done | lia].
Qed.

(** [poll] always comes back, with a value or with an exception. *)
Lemma poll_total self : ∃ o, Touchscreen.poll p self = Some o.
Proof. apply poll_loop_enough. lia. Qed.

Lemma poll_loop_poll fuel self o :
  Touchscreen.poll_loop p fuel self = Some o → Touchscreen.poll p self = Some o.
Proof.
  intros Hloop. destruct (poll_total self) as [o' Ho'].
  rewrite Ho'. unfold Touchscreen.poll in Ho'.
  destruct (Nat.le_ge_cases fuel (S (length (Touchscreen._f_device self)))).
  - by rewrite (poll_loop_mono _ _ _ _ Hloop) in Ho'.
  - rewrite (poll_loop_mono _ _ _ _ Ho') in Hloop; done.
Qed.

(** [poll] is its loop: one turn, then [poll] again if the loop goes
    round. *)
Lemma poll_unfold self :
  Touchscreen.poll p self =
    if stopped self then Some (Touchscreen.Outcome (Ok None) [] self)
    else
      match Touchscreen.read p self with
      | (Raise e, self1) => Some (Touchscreen.Outcome (Raise e) [] self1)
      | (Ok event, self1) =>
          if decide (type event = EV_SYN) then
            Some (Touchscreen.Outcome
                    (Ok (Some (map Touch.clear (Touchscreen.touches self1))))
                    (barrier_calls (Touchscreen.touches self1))
                    (Touchscreen.set_touches
                       (map Touch.clear (Touchscreen.touches self1)) self1))
          else
            match (if decide (type event = EV_ABS)
                   then Touchscreen.poll_abs event self1
                   else (Ok tt, self1)) with
            | (Raise e, self2) => Some (Touchscreen.Outcome (Raise e) [] self2)
            | (Ok _, self2) => Touchscreen.poll p self2
            end
      end.
Proof.
  unfold Touchscreen.poll at 1. rewrite poll_loop_S.
  destruct (stopped self); [done|].
  destruct (Touchscreen.read p self) as [[event|e] self1] eqn:Hread; [|done].
  case_decide; [done|].
  destruct (if decide (type event = EV_ABS) then _ else _)
    as [[[]|e] self2] eqn:Hrec; [|done].
  destruct (poll_total self2) as [o Ho]. rewrite Ho.
  apply (poll_loop_mono (S (length (Touchscreen._f_device self2)))); [done|].
  apply read_Ok_length in Hread as [_ Hlt].
  apply record_frame in Hrec as ((Hdev & _) & _). rewrite Hdev. lia.
Qed.

End PollLemmas.

Section PollInvariants.

Variable p : platform.
Implicit Types (self : Touchscreen.t) (event : TouchEvent) (fuel : nat).

Lemma read_registry self :
  Touchscreen.registry (snd (Touchscreen.read p self))
  = Touchscreen.registry self.
Proof. by rewrite read_final. Qed.

Lemma read_Ok_parts self event self1 :
  Touchscreen.read p self = (Ok event, self1) →
  Touchscreen.position self1 = Touchscreen.position self
  ∧ Touchscreen.touches self1 = Touchscreen.touches self
  ∧ Touchscreen._touch_slot self1 = Touchscreen._touch_slot self
  ∧ stopped self1 = stopped self.
Proof. rewrite read_unfold. by intros [= _ <-]. Qed.

(** What every call of [poll] keeps, however many records it reads:
    [position] is only written to, the number of touches stays, the
    callbacks invoked are those of touches of the list, and a list that is
    returned is [self.touches] with nothing pending. *)
Lemma poll_loop_invariant fuel self o :
  Touchscreen.poll_loop p fuel self = Some o →
  position_kept self (Touchscreen.final o)
  ∧ length (Touchscreen.touches (Touchscreen.final o))
    = length (Touchscreen.touches self)
  ∧ (∀ c, c ∈ Touchscreen.calls o →
       ∃ i, fst c = SlotRef i ∧ (i < length (Touchscreen.touches self))%nat)
  ∧ (∀ l, Touchscreen.returned o = Ok (Some l) →
       l = Touchscreen.touches (Touchscreen.final o)
       ∧ Forall (λ touch, Touch.events touch = []) l)
  ∧ (∀ e, Touchscreen.returned o = Raise e → Touchscreen.calls o = [])
  ∧ (Touchscreen.returned o = Ok None → Touchscreen.calls o = []).
Proof.
  revert self o. induction fuel as [|fuel IH]; intros self o; [done|].
  rewrite poll_loop_S. destruct (stopped self).
  { intros [= <-]; simpl.
    split_and!; [apply position_kept_refl | done | | done..].
    by intros c ?%elem_of_nil. }
  pose proof (read_final p self) as Hfin.
  destruct (Touchscreen.read p self) as [[event|e] self1] eqn:Hread;
    simpl in Hfin; subst self1.
  2:{ intros [= <-]; simpl.
      split_and!; [by apply position_kept_eq | done | | done..].
      by intros c ?%elem_of_nil. }
  case_decide.
  { intros [= <-]; simpl. rewrite length_map.
    split_and!; [by apply position_kept_eq | done | | | done..].
    - intros c (i & touch & Hi & Hc & _)%barrier_calls_refs.
      exists i. split; [done|]. by eapply lookup_lt_Some.
    - intros l [= <-]. split; [done | apply cleared_events]. }
  destruct (if decide (type event = EV_ABS) then _ else _)
    as [[[]|e] self2] eqn:Hrec.
  - apply record_frame in Hrec as ((_ & _ & _ & Hlen) & Hpos & _).
    intros (Hpos' & Hlen' & Hcalls & Hr1 & Hr2 & Hr3)%IH.
    split_and!; [ | | | done..].
    + eapply position_kept_trans; [|exact Hpos'].
      eapply position_kept_trans; [|exact Hpos]. by apply position_kept_eq.
    + by rewrite Hlen', Hlen.
    + intros c (i & ? & ?)%Hcalls. exists i. split; [done|].
      by rewrite Hlen in *.
  - apply record_frame in Hrec as ((_ & _ & _ & Hlen) & Hpos & _).
    intros [= <-]; simpl.
    split_and!; [ | done | | done..].
    + eapply position_kept_trans; [|exact Hpos]. by apply position_kept_eq.
    + by intros c ?%elem_of_nil.
Qed.

End PollInvariants.

(** ** The barrier *)

(** C5.  When the record that [poll] reads is a [SYN] record, [poll] calls
    [handle_events] on every touch of [self.touches], in order: the
    callbacks invoked are exactly those of the pending events of each slot;
    afterwards no slot has a pending event, whether or not the frame wrote
    to it; and [poll] returns [self.touches] without reading further.  The
    cursor and [position] are as before the record. *)
Theorem syn_dispatches_and_clears_every_slot
    (p : platform) (self : Touchscreen.t) (event : TouchEvent)
    (self1 : Touchscreen.t) :
  stopped self = false →
  Touchscreen.read p self = (Ok event, self1) →
  type event = EV_SYN →
  ∃ o, Touchscreen.poll p self = Some o
    ∧ Touchscreen.calls o = barrier_calls (Touchscreen.touches self)
    ∧ (∀ i c, (SlotRef i, c) ∈ Touchscreen.calls o ↔
              ∃ touch, Touchscreen.touches self !! i = Some touch
                       ∧ c ∈ fst (Touch.handle_events touch))
    ∧ Touchscreen.touches (Touchscreen.final o)
      = map Touch.clear (Touchscreen.touches self)
    ∧ Forall (λ touch, Touch.events touch = [])
             (Touchscreen.touches (Touchscreen.final o))
    ∧ length (Touchscreen.touches (Touchscreen.final o))
      = length (Touchscreen.touches self)
    ∧ Touchscreen.returned o
      = Ok (Some (Touchscreen.touches (Touchscreen.final o)))
    ∧ Touchscreen.position (Touchscreen.final o) = Touchscreen.position self
    ∧ Touchscreen._touch_slot (Touchscreen.final o)
      = Touchscreen._touch_slot self
    ∧ Touchscreen._f_device (Touchscreen.final o)
      = drop (Touchscreen.EVENT_SIZE p) (Touchscreen._f_device self).
Proof.
  intros Hrun Hread Hsyn.
  pose proof (read_Ok_parts _ _ _ _ Hread) as (Hpos & Htouches & Hslot & _).
  pose proof (read_final p self) as Hfin. rewrite Hread in Hfin. simpl in Hfin.
  eexists. split.
  { rewrite poll_unfold, Hrun, Hread. by rewrite decide_True. }
  simpl. rewrite Htouches, length_map.
  split_and!; try done.
  - intros i c. split.
    + intros (j & touch & Hj & [= <-] & Hc)%barrier_calls_refs. eauto.
    + intros (touch & Hi & Hc). unfold barrier_calls.
      apply list_elem_of_join.
      exists (map (pair (SlotRef i)) (fst (Touch.handle_events touch))).
      split; [by apply list_elem_of_fmap_2|].
      by apply (elem_of_lookup_imap_2
                  (λ i touch, map (pair (SlotRef i)) (fst (Touch.handle_events touch)))).
  - apply cleared_events.
  - by rewrite Hfin.
Qed.

(** On the touchscreen of [before_barrier]: slot 2 gets its press and then
    its move, slot 7 its move, and all ten slots end with nothing pending. *)
Lemma syn_dispatches_and_clears_every_slot_witness :
  ∃ o, Touchscreen.poll lp64 (before_barrier lp64) = Some o
    ∧ map (λ c, (fst c, Touch.arg_event (snd c))) (Touchscreen.calls o)
      = [(SlotRef 2, TS_PRESS); (SlotRef 2, TS_MOVE); (SlotRef 7, TS_MOVE)]
    ∧ map Touch.events (Touchscreen.touches (Touchscreen.final o))
      = replicate 10 [].
Proof.
  destruct (syn_dispatches_and_clears_every_slot lp64 (before_barrier lp64)
              (mkTouchEvent (0, 0) 0 0 0)
              (Touchscreen.set_f_device [] (before_barrier lp64)))
    as (o & Hpoll & Hcalls & _ & Htouches & _).
  - reflexivity.
  - reflexivity.
  - reflexivity.
  - exists o. split; [exact Hpoll|]. rewrite Hcalls, Htouches. split; reflexivity.
Defined.

(** What [poll] returns when it returns a list: the touches of the object,
    none with a pending event. *)
Lemma poll_returns_cleared_touches p self o l :
  Touchscreen.poll p self = Some o →
  Touchscreen.returned o = Ok (Some l) →
  l = Touchscreen.touches (Touchscreen.final o)
  ∧ Forall (λ touch, Touch.events touch = []) l
  ∧ length l = length (Touchscreen.touches self).
Proof.
  intros Hpoll Hret.
  apply poll_loop_invariant in Hpoll as (_ & Hlen & _ & Hl & _).
  destruct (Hl l Hret) as [-> Hall]. done.
Qed.

(** ** Failures of [read] *)

(** Bytes that are not a whole record do not unpack. *)
Lemma read_short (p : platform) (self : Touchscreen.t) :
  length (take (Touchscreen.EVENT_SIZE p) (Touchscreen._f_device self))
    ≠ Touchscreen.EVENT_SIZE p →
  Touchscreen.read p self
  = (Raise struct_error,
     Touchscreen.set_f_device
       (drop (Touchscreen.EVENT_SIZE p) (Touchscreen._f_device self)) self).
Proof. intros Hlen. rewrite read_unfold. by rewrite unpack_wrong_length. Qed.

(** [poll] has no handler around [read]: what [read] raises, [poll] raises. *)
Lemma poll_read_raises (p : platform) (self self1 : Touchscreen.t) (e : exn) :
  stopped self = false →
  Touchscreen.read p self = (Raise e, self1) →
  Touchscreen.poll p self = Some (Touchscreen.Outcome (Raise e) [] self1).
Proof. intros Hrun Hread. by rewrite poll_unfold, Hrun, Hread. Qed.

(** C8.  When the bytes that [read] gets from the device are not a whole
    record, [read] raises [struct.error], the exception of [struct.unpack]
    (the protocol error of the specification), and so does [poll], without
    invoking a callback; the position, the touches with their ids,
    coordinates and pending events, and the cursor are what they were before
    the read. *)
Theorem malformed_record_raises_and_keeps_registry
    (p : platform) (self : Touchscreen.t) :
  stopped self = false →
  length (take (Touchscreen.EVENT_SIZE p) (Touchscreen._f_device self))
    ≠ Touchscreen.EVENT_SIZE p →
  fst (Touchscreen.read p self) = Raise struct_error
  ∧ Touchscreen.registry (snd (Touchscreen.read p self))
    = Touchscreen.registry self
  ∧ ∃ o, Touchscreen.poll p self = Some o
      ∧ Touchscreen.returned o = Raise struct_error
      ∧ Touchscreen.calls o = []
      ∧ Touchscreen.registry (Touchscreen.final o) = Touchscreen.registry self.
Proof.
  intros Hrun Hlen.
  pose proof (read_short p self Hlen) as Hread.
  rewrite Hread. split_and!; [done..|].
  eexists. split; [by apply poll_read_raises|]. done.
Qed.

(** A device that holds three bytes where a record of 24 should be. *)
Lemma malformed_record_raises_and_keeps_registry_witness :
  ∃ o, Touchscreen.poll lp64 (at_short_record lp64) = Some o
    ∧ Touchscreen.returned o = Raise struct_error
    ∧ Touchscreen.registry (Touchscreen.final o)
      = Touchscreen.registry (at_short_record lp64).
Proof.
  destruct (malformed_record_raises_and_keeps_registry lp64 (at_short_record lp64))
    as (_ & _ & o & Hpoll & Hret & _ & Hreg).
  - reflexivity.
  - vm_compute. lia.
  - by exists o.
Defined.

(** C7, as the code has it.  At the end of the device file [read] gets the
    empty byte string, [struct.unpack] raises [struct.error] and [poll]
    passes it on to its caller: decoding stops, no callback is invoked,
    nothing of the object changes, and the failure is not turned into a
    return value.  The exception is the one that a record cut short raises:
    the two failures reach the caller as the same exception. *)
Theorem end_of_stream_raises_struct_error (p : platform) (self : Touchscreen.t) :
  stopped self = false →
  Touchscreen._f_device self = [] →
  ∃ o, Touchscreen.poll p self = Some o
    ∧ Touchscreen.returned o = Raise struct_error
    ∧ Touchscreen.calls o = []
    ∧ Touchscreen.final o = self
    ∧ ∀ self',
        stopped self' = false →
        (0 < length (Touchscreen._f_device self') < Touchscreen.EVENT_SIZE p)%nat →
        ∃ o', Touchscreen.poll p self' = Some o'
              ∧ Touchscreen.returned o' = Touchscreen.returned o.
Proof.
  intros Hrun Hdev.
  assert (Touchscreen.read p self = (Raise struct_error, self)) as Hread.
  { rewrite read_short.
    - rewrite Hdev, drop_nil. destruct self; simpl in *; by subst.
    - rewrite Hdev, take_nil. simpl. pose proof (calcsize_pos p).
      unfold Touchscreen.EVENT_SIZE. lia. }
  eexists. split; [by apply poll_read_raises|]. simpl.
  split_and!; [done..|].
  intros self' Hrun' Hlen'.
  eexists. split.
  - apply poll_read_raises; [done|].
    apply read_short. rewrite length_take. lia.
  - reflexivity.
Qed.

Lemma end_of_stream_raises_struct_error_witness :
  ∃ o, Touchscreen.poll lp64 (at_end_of_stream lp64) = Some o
    ∧ Touchscreen.returned o = Raise struct_error
    ∧ Touchscreen.final o = at_end_of_stream lp64.
Proof.
  destruct (end_of_stream_raises_struct_error lp64 (at_end_of_stream lp64))
    as (o & Hpoll & Hret & _ & Hfinal & _).
  - reflexivity.
  - reflexivity.
  - by exists o.
Defined.

(** C7 fails as stated: the end of the stream and a record of three bytes
    make [poll] raise the same exception, on a 64-bit and on a 32-bit
    machine; the caller cannot tell a device that went away from a record of
    the wrong size. *)
Lemma end_of_stream_same_exception_as_short_record :
  Touchscreen.returned <$> Touchscreen.poll lp64 (at_end_of_stream lp64)
    = Some (Raise struct_error)
  ∧ Touchscreen.returned <$> Touchscreen.poll lp64 (at_short_record lp64)
    = Some (Raise struct_error)
  ∧ Touchscreen.returned <$> Touchscreen.poll ilp32 (at_end_of_stream ilp32)
    = Touchscreen.returned <$> Touchscreen.poll ilp32 (at_short_record ilp32).
Proof. split_and!; reflexivity. Qed.

(** ** Selecting a slot *)

Section SlotLemmas.

Implicit Types (self : Touchscreen.t) (n : Z).

Lemma subscript_out_of_range (len : nat) n :
  n < - Z.of_nat len ∨ Z.of_nat len ≤ n → subscript len n = Raise IndexError.
Proof. intros H. unfold subscript. repeat case_decide; (done || lia). Qed.

Lemma subscript_negative (len : nat) n :
  - Z.of_nat len ≤ n < 0 → subscript len n = Ok (Z.to_nat (Z.of_nat len + n)).
Proof. intros H. unfold subscript. repeat case_decide; (done || lia). Qed.

Lemma subscript_in_range (len : nat) n :
  0 ≤ n < Z.of_nat len → subscript len n = Ok (Z.to_nat n).
Proof. intros H. unfold subscript. by rewrite decide_True. Qed.

End SlotLemmas.

(** C9, as the code has it.  A slot-select value [n] outside [0 .. 9] is
    stored as the cursor as it is: the record neither fails nor brings [n]
    into range, and changes nothing else.  With the ten touches of the
    touchscreen, a later tracking-id, x or y record raises [IndexError] and
    changes nothing when [n >= 10] or [n < -10]; when [-10 <= n <= -1] the
    subscript counts from the end of the list and the cursor names the touch
    at place [n + 10]. *)
Theorem out_of_range_slot_is_stored_unchecked
    (self : Touchscreen.t) (tv : Z * Z) (n : Z) :
  ¬ (0 ≤ n < 10) →
  length (Touchscreen.touches self) = 10%nat →
  let selected := Touchscreen.set_touch_slot n self in
  Touchscreen.poll_abs (mkTouchEvent tv EV_ABS ABS_MT_SLOT n) self
    = (Ok tt, selected)
  ∧ Touchscreen._touch_slot selected = n
  ∧ Touchscreen.touches selected = Touchscreen.touches self
  ∧ Touchscreen.position selected = Touchscreen.position self
  ∧ (n < -10 ∨ 10 ≤ n →
       ∀ tv' c v,
         c ∈ [ABS_MT_TRACKING_ID; ABS_MT_POSITION_X; ABS_MT_POSITION_Y] →
         Touchscreen.poll_abs (mkTouchEvent tv' EV_ABS c v) selected
         = (Raise IndexError, selected))
  ∧ (-10 ≤ n < 0 →
       Touchscreen._current_touch selected = (Ok (Z.to_nat (10 + n)), selected)
       ∧ ∀ tv' v,
           Touchscreen.poll_abs (mkTouchEvent tv' EV_ABS ABS_MT_POSITION_X v)
                                selected
           = (Ok tt,
              Touchscreen.set_touches
                (alter (Touch.set_x v) (Z.to_nat (10 + n))
                       (Touchscreen.touches self)) selected)).
Proof.
  intros Hn Hlen selected.
  split_and!; try reflexivity.
  - intros Hout tv' c v Hc. rewrite poll_abs_cases. cbn [code value].
    assert (Touchscreen.set_current_touch (Touch.set_id v) selected
            = (Raise IndexError, selected)
            ∧ Touchscreen.set_current_touch (Touch.set_x v) selected
            = (Raise IndexError, selected)
            ∧ Touchscreen.set_current_touch (Touch.set_y v) selected
            = (Raise IndexError, selected)) as (Hid & Hx & Hy).
    { rewrite !set_current_touch_unfold. cbn [selected Touchscreen.touches
        Touchscreen.set_touch_slot Touchscreen._touch_slot].
      rewrite Hlen, subscript_out_of_range by lia. done. }
    rewrite !elem_of_cons in Hc.
    destruct Hc as [-> | [-> | [-> | Hc]]]; [done..|].
    by apply elem_of_nil in Hc.
  - intros Hneg.
    assert (subscript (length (Touchscreen.touches selected))
                      (Touchscreen._touch_slot selected)
            = Ok (Z.to_nat (10 + n))) as Hsub.
    { cbn [selected Touchscreen.touches Touchscreen.set_touch_slot
        Touchscreen._touch_slot].
      rewrite Hlen, subscript_negative by lia. done. }
    split.
    + unfold Touchscreen._current_touch. by rewrite Hsub.
    + intros tv' v. rewrite poll_abs_cases. cbn [code value].
      rewrite decide_False by done. rewrite decide_False by done.
      rewrite decide_True by done.
      rewrite set_current_touch_unfold, Hsub. done.
Qed.

(** Slot 12 on a new touchscreen: the cursor is 12 and the next x record
    raises [IndexError]. *)
Lemma out_of_range_slot_is_stored_unchecked_witness :
  let self := Touchscreen.init [] in
  let selected := Touchscreen.set_touch_slot 12 self in
  Touchscreen.poll_abs (mkTouchEvent (0, 0) EV_ABS ABS_MT_SLOT 12) self
    = (Ok tt, selected)
  ∧ Touchscreen.poll_abs (mkTouchEvent (0, 0) EV_ABS ABS_MT_POSITION_X 7) selected
    = (Raise IndexError, selected).
Proof.
  intros self selected.
  destruct (out_of_range_slot_is_stored_unchecked self (0, 0) 12)
    as (Hsel & _ & _ & _ & Hraise & _).
  - lia.
  - reflexivity.
  - split; [exact Hsel|].
    apply Hraise; [lia|]. right. left.
Defined.

(** C9 fails as stated: after the records [ABS_MT_SLOT -1] and
    [ABS_MT_POSITION_X 7], [poll] returns at the barrier without any
    failure, the cursor is -1, and the touch that was moved and whose
    [on_move] was called is the one at place 9. *)
Lemma negative_slot_select_writes_last_slot :
  ∃ o, Touchscreen.poll lp64
         (touchscreen_with_callbacks 1%nat 2%nat 3%nat (negative_slot_frame lp64))
       = Some o
    ∧ Touchscreen.returned o
      = Ok (Some (Touchscreen.touches (Touchscreen.final o)))
    ∧ Touchscreen._touch_slot (Touchscreen.final o) = -1
    ∧ map Touch.x (Touchscreen.touches (Touchscreen.final o))
      = [0; 0; 0; 0; 0; 0; 0; 0; 0; 7]
    ∧ map (λ c, (fst c, Touch.arg_event (snd c))) (Touchscreen.calls o)
      = [(SlotRef 9, TS_MOVE)].
Proof.
  eexists. split; [vm_compute; reflexivity|].
  split_and!; reflexivity.
Qed.

(** With [ABS_MT_SLOT 10] the record itself passes; [poll] raises
    [IndexError] at the x record that follows, before the barrier, with the
    cursor at 10 and every touch where it was. *)
Example large_slot_select_raises_at_next_write :
  ∃ o, Touchscreen.poll lp64
         (touchscreen_with_callbacks 1%nat 2%nat 3%nat (large_slot_frame lp64))
       = Some o
    ∧ Touchscreen.returned o = Raise IndexError
    ∧ Touchscreen.calls o = []
    ∧ Touchscreen._touch_slot (Touchscreen.final o) = 10
    ∧ map Touch.x (Touchscreen.touches (Touchscreen.final o)) = replicate 10 0
    ∧ Touchscreen._f_device (Touchscreen.final o) = syn_record lp64.
Proof.
  eexists. split; [vm_compute; reflexivity|].
  split_and!; reflexivity.
Qed.

(** ** The single-touch position *)

Section PositionLemmas.

Variable p : platform.
Implicit Types (self : Touchscreen.t) (n : nat).

Lemma poll_position_kept self o :
  Touchscreen.poll p self = Some o →
  position_kept self (Touchscreen.final o)
  ∧ ∀ c, c ∈ Touchscreen.calls o → ∃ i, fst c = SlotRef i.
Proof.
  intros (Hpos & _ & Hcalls & _)%poll_loop_invariant.
  split; [done|]. intros c (i & ? & _)%Hcalls. eauto.
Qed.

Lemma polls_position_kept n self :
  position_kept self (snd (polls p n self))
  ∧ ∀ c, c ∈ fst (polls p n self) → ∃ i, fst c = SlotRef i.
Proof.
  revert self. induction n as [|n IH]; intros self.
  { split; [apply position_kept_refl | by intros c ?%elem_of_nil]. }
  cbn [polls].
  destruct (Touchscreen.poll p self) as [o|] eqn:Hpoll.
  2:{ split; [apply position_kept_refl | by intros c ?%elem_of_nil]. }
  apply poll_position_kept in Hpoll as [Hpos Hcalls].
  destruct (Touchscreen.returned o); [|done].
  destruct (IH (Touchscreen.final o)) as [Hpos' Hcalls'].
  destruct (polls p n (Touchscreen.final o)) as [cs self']. simpl in *.
  split; [by eapply position_kept_trans|].
  intros c [?|?]%elem_of_app; auto.
Qed.

End PositionLemmas.

(** C10.  [poll] writes to [position] and never dispatches it.  A record
    [ABS_X v] or [ABS_Y v] runs the x or y setter of [position], which
    appends [TS_MOVE] under the conditions of C3, and no record assigns its
    id.  Whatever the device holds, one call of [poll], and any number of
    calls in a row, leave the pending events of [position] a list that
    starts with what was pending before (they are never cleared, so a
    pending move stays pending); and every callback invoked is invoked on a
    touch of [touches], none on [position]. *)
Theorem position_is_never_dispatched (p : platform) (self : Touchscreen.t) :
  (∀ tv v,
     Touchscreen.poll_abs (mkTouchEvent tv EV_ABS ABS_X v) self
     = (Ok tt, Touchscreen.set_position (Touch.set_x v) self)
     ∧ Touchscreen.poll_abs (mkTouchEvent tv EV_ABS ABS_Y v) self
       = (Ok tt, Touchscreen.set_position (Touch.set_y v) self))
  ∧ (∀ v, TS_MOVE ∉ Touch.events (Touchscreen.position self) →
       (v ≠ Touch.x (Touchscreen.position self) →
        Touch.events (Touchscreen.position
                        (Touchscreen.set_position (Touch.set_x v) self))
        = Touch.events (Touchscreen.position self) ++ [TS_MOVE])
       ∧ (v ≠ Touch.y (Touchscreen.position self) →
          Touch.events (Touchscreen.position
                          (Touchscreen.set_position (Touch.set_y v) self))
          = Touch.events (Touchscreen.position self) ++ [TS_MOVE]))
  ∧ (∀ o, Touchscreen.poll p self = Some o →
       position_kept self (Touchscreen.final o)
       ∧ (TS_MOVE ∈ Touch.events (Touchscreen.position self) →
          TS_MOVE ∈ Touch.events (Touchscreen.position (Touchscreen.final o)))
       ∧ ∀ c, c ∈ Touchscreen.calls o → fst c ≠ PositionRef)
  ∧ (∀ n,
       position_kept self (snd (polls p n self))
       ∧ (TS_MOVE ∈ Touch.events (Touchscreen.position self) →
          TS_MOVE ∈ Touch.events (Touchscreen.position (snd (polls p n self))))
       ∧ ∀ c, c ∈ fst (polls p n self) → fst c ≠ PositionRef).
Proof.
  assert (∀ self', position_kept self self' →
            TS_MOVE ∈ Touch.events (Touchscreen.position self) →
            TS_MOVE ∈ Touch.events (Touchscreen.position self')) as Hmove.
  { intros self' ([ms ->] & _) Hin. apply elem_of_app. by left. }
  split_and!.
  - intros tv v. by rewrite !poll_abs_cases.
  - intros v Hpending.
    cbn [Touchscreen.position Touchscreen.set_position].
    rewrite set_x_events, set_y_events.
    split; intros Hne; by rewrite decide_True.
  - intros o [Hpos Hcalls]%poll_position_kept.
    split_and!; [done | by apply Hmove |].
    intros c [i Hi]%Hcalls. by rewrite Hi.
  - intros n. destruct (polls_position_kept p n self) as [Hpos Hcalls].
    split_and!; [done | by apply Hmove |].
    intros c [i Hi]%Hcalls. by rewrite Hi.
Qed.

(** Two frames that move the single-touch position, on a touchscreen whose
    position has its callbacks assigned: after both barriers the move is
    still pending on [position] and no callback was invoked. *)
Lemma position_is_never_dispatched_witness :
  let self :=
    touchscreen_with_callbacks 1%nat 2%nat 3%nat (single_touch_frames lp64) in
  Touch.on_move (Touchscreen.position self) = Some 1%nat
  ∧ Touch.events (Touchscreen.position (snd (polls lp64 2 self))) = [TS_MOVE]
  ∧ Touch.position (Touchscreen.position (snd (polls lp64 2 self))) = (5, 6)
  ∧ fst (polls lp64 2 self) = []
  ∧ Touchscreen._f_device (snd (polls lp64 2 self)) = []
  ∧ position_kept self (snd (polls lp64 2 self)).
Proof.
  intros self.
  destruct (position_is_never_dispatched lp64 self) as (_ & _ & _ & Hpolls).
  destruct (Hpolls 2%nat) as (Hkept & _).
  split_and!; [reflexivity.. | exact Hkept].
Defined.

(** ** The invariant of C4 on the whole touchscreen *)

Section RegistryInvariant.

Variable p : platform.
Implicit Types (self : Touchscreen.t) (event : TouchEvent).

Lemma init_pending_NoDup (device : list byte) :
  pending_NoDup (Touchscreen.init device).
Proof.
  split; [apply NoDup_nil_2|].
  apply Forall_forall. intros touch (x & -> & _)%list_elem_of_fmap.
  apply NoDup_nil_2.
Qed.

Lemma set_current_touch_pending_NoDup (f : Touch.t → Touch.t) self r self' :
  (∀ touch, NoDup (Touch.events touch) → NoDup (Touch.events (f touch))) →
  Touchscreen.set_current_touch f self = (r, self') →
  pending_NoDup self → pending_NoDup self'.
Proof.
  intros Hf. rewrite set_current_touch_unfold.
  destruct (subscript _ _) as [i|e]; intros [= <- <-] [Hpos Hall]; [|done].
  split; [done|]. simpl. apply Forall_alter; [done|]. intros touch _. apply Hf.
Qed.

Lemma poll_abs_pending_NoDup event self r self' :
  Touchscreen.poll_abs event self = (r, self') →
  pending_NoDup self → pending_NoDup self'.
Proof.
  rewrite poll_abs_cases. repeat case_decide.
  - by intros [= <- <-].
  - apply set_current_touch_pending_NoDup. intros touch. apply set_id_NoDup.
  - apply set_current_touch_pending_NoDup. intros touch. apply set_x_NoDup.
  - apply set_current_touch_pending_NoDup. intros touch. apply set_y_NoDup.
  - intros [= <- <-] [Hpos Hall]. split; [by apply set_x_NoDup | done].
  - intros [= <- <-] [Hpos Hall]. split; [by apply set_y_NoDup | done].
  - by intros [= <- <-].
Qed.

(** Every call of [poll] keeps the touches and the position free of
    duplicate pending events. *)
Lemma poll_loop_pending_NoDup fuel self o :
  Touchscreen.poll_loop p fuel self = Some o →
  pending_NoDup self → pending_NoDup (Touchscreen.final o).
Proof.
  revert self o. induction fuel as [|fuel IH]; intros self o; [done|].
  rewrite poll_loop_S. destruct (stopped self); [by intros [= <-]|].
  pose proof (read_final p self) as Hfin.
  destruct (Touchscreen.read p self) as [[event|e] self1];
    simpl in Hfin; subst self1; [|by intros [= <-]].
  case_decide.
  { intros [= <-] [Hpos _]. split; [done|]. simpl.
    apply Forall_forall. intros touch (x & -> & _)%list_elem_of_fmap.
    apply NoDup_nil_2. }
  destruct (if decide (type event = EV_ABS) then _ else _)
    as [[[]|e] self2] eqn:Hrec.
  - intros Hpoll Hinv. apply (IH _ _ Hpoll).
    case_decide; [by eapply poll_abs_pending_NoDup | by injection Hrec as <-].
  - intros [= <-] Hinv. simpl.
    case_decide; [by eapply poll_abs_pending_NoDup | discriminate].
Qed.

Lemma poll_pending_NoDup self o :
  Touchscreen.poll p self = Some o →
  pending_NoDup self → pending_NoDup (Touchscreen.final o).
Proof. apply poll_loop_pending_NoDup. Qed.

(** From a new touchscreen, after any number of calls of [poll] on any
    device, no touch has an event pending twice. *)
Lemma polls_pending_NoDup (n : nat) (device : list byte) :
  pending_NoDup (snd (polls p n (Touchscreen.init device))).
Proof.
  generalize (init_pending_NoDup device).
  generalize (Touchscreen.init device) as self.
  induction n as [|n IH]; intros self Hinv; [done|].
  cbn [polls]. destruct (Touchscreen.poll p self) as [o|] eqn:Hpoll; [|done].
  pose proof (poll_pending_NoDup _ _ Hpoll Hinv) as Hinv'.
  destruct (Touchscreen.returned o); [|done].
  specialize (IH _ Hinv').
  by destruct (polls p n (Touchscreen.final o)).
Qed.

End RegistryInvariant.

(** ** The scenario of a contact, end to end *)

(** A contact comes down on slot 2, moves and is lifted, on a touchscreen
    whose callbacks are 1 for move, 2 for press and 3 for release.  First
    frame: press, then move, on slot 2 at (100, 200), which is valid
    afterwards.  Second frame: one move at [x = 150] with [last_x = 100].
    Third frame: one release, and no touch is valid. *)
Example contact_scenario :
  let self :=
    touchscreen_with_callbacks 1%nat 2%nat 3%nat (contact_frames lp64) in
  ∃ o1 o2 o3,
    Touchscreen.poll lp64 self = Some o1
    ∧ Touchscreen.poll lp64 (Touchscreen.final o1) = Some o2
    ∧ Touchscreen.poll lp64 (Touchscreen.final o2) = Some o3
    ∧ map call_summary (Touchscreen.calls o1)
      = [(SlotRef 2, 2%nat, TS_PRESS, (100, 200), (0, 0));
         (SlotRef 2, 1%nat, TS_MOVE, (100, 200), (0, 0))]
    ∧ map Touch.slot (Touches.valid (Touchscreen.touches (Touchscreen.final o1)))
      = [2]
    ∧ map call_summary (Touchscreen.calls o2)
      = [(SlotRef 2, 1%nat, TS_MOVE, (150, 200), (100, 0))]
    ∧ map call_summary (Touchscreen.calls o3)
      = [(SlotRef 2, 3%nat, TS_RELEASE, (150, 200), (100, 0))]
    ∧ Touches.valid (Touchscreen.touches (Touchscreen.final o3)) = [].
Proof.
  intros self.
  eexists _, _, _.
  split; [vm_compute; reflexivity|].
  split; [vm_compute; reflexivity|].
  split; [vm_compute; reflexivity|].
  split_and!; reflexivity.
Qed.

(** * Further properties of the code *)

(** ** Finding the device *)

Section Discovery.

Implicit Types (s ws : string) (fs : sysfs) (evdev : string).

Lemma basename_no_sep s : has_sep (basename s) = false.
Proof.
  induction s as [|c rest IH]; [done|].
  cbn [basename]. destruct (has_sep rest) eqn:Hrest; [done|].
  destruct (is_sep c) eqn:Hc; [done|].
  cbn [has_sep]. by rewrite Hc, Hrest.
Qed.

Lemma no_sep_startswith s : has_sep s = false → startswith_sep s = false.
Proof. destruct s as [|c s]; [done|]. cbn. by intros [-> _]%orb_false_elim. Qed.

(** The path that is returned lies directly in [/dev/input]. *)
Lemma device_path evdev :
  os_path_join "/dev" ["input"; basename evdev]
  = "/dev/input/" +:+ basename evdev.
Proof.
  unfold os_path_join. cbn [foldl].
  change (join_step "/dev" "input") with "/dev/input".
  unfold join_step.
  by rewrite (no_sep_startswith _ (basename_no_sep evdev)).
Qed.

Lemma lstrip_blank ws s : blank ws = true → lstrip (ws +:+ s) = lstrip s.
Proof.
  induction ws as [|c ws IH]; [done|].
  cbn [blank]. intros [Hc Hws]%andb_prop.
  change (String c ws +:+ s) with (String c (ws +:+ s)).
  cbn [lstrip]. rewrite Hc. auto.
Qed.

Lemma rstrip_blank ws : blank ws = true → rstrip ws = EmptyString.
Proof.
  induction ws as [|c ws IH]; [done|].
  cbn [blank rstrip]. intros [Hc Hws]%andb_prop. by rewrite IH, Hc.
Qed.

Lemma rstrip_app_blank s ws : blank ws = true → rstrip (s +:+ ws) = rstrip s.
Proof.
  intros Hws. induction s as [|c s IH]; [by apply rstrip_blank|].
  change (String c s +:+ ws) with (String c (s +:+ ws)).
  cbn [rstrip]. by rewrite IH.
Qed.

(** Whitespace around the name does not count. *)
Lemma strip_name ws1 ws2 :
  blank ws1 = true → blank ws2 = true →
  strip (ws1 +:+ TOUCHSCREEN_EVDEV_NAME +:+ ws2) = TOUCHSCREEN_EVDEV_NAME.
Proof.
  intros H1 H2. unfold strip. rewrite lstrip_blank by done.
  change (lstrip (TOUCHSCREEN_EVDEV_NAME +:+ ws2))
    with (TOUCHSCREEN_EVDEV_NAME +:+ ws2).
  by rewrite rstrip_app_blank.
Qed.

End Discovery.

(** X1.  [_touch_device] decides on the first path that [glob] returns and
    on the name file of that path alone: the paths after the first, and
    every other file, are never looked at.  So when the first device is not
    the touchscreen, or its name file is missing, [RuntimeError] is raised
    even if a later device is the touchscreen. *)
Theorem touch_device_looks_at_first_entry_only
    (evdev : string) (others others' : list string)
    (rd rd' : string → read_result) :
  (rd' (name_file evdev) = rd (name_file evdev) →
   _touch_device (Sysfs (evdev :: others') rd')
   = _touch_device (Sysfs (evdev :: others) rd))
  ∧ ((∀ content, rd (name_file evdev) = Text content →
                 strip content ≠ TOUCHSCREEN_EVDEV_NAME) →
     (∀ errno, rd (name_file evdev) = IOError errno → errno = ENOENT) →
     _touch_device (Sysfs (evdev :: others) rd) = RaisesRuntimeError).
Proof.
  unfold _touch_device, touch_device_turn, name_file. cbn [glob_events read_text].
  split.
  - by intros ->.
  - intros Htext Herr.
    destruct (rd _) as [errno|content] eqn:Hrd.
    + rewrite (Herr errno eq_refl). by rewrite bool_decide_false by (by intros []).
    + by rewrite bool_decide_false by (by apply Htext).
Qed.

(** X2.  The outcomes of [_touch_device].  With no event device at all it
    returns [None] without raising.  Otherwise, on the first device: if the
    text of the name file, stripped, is the name of the touchscreen, whatever
    whitespace surrounds it, the path returned is [/dev/input/] followed by
    the last component of the device's path; if the text is another name, or
    the file does not exist ([ENOENT]), [RuntimeError] is raised; any other
    [IOError] is raised again as it is. *)
Theorem touch_device_outcomes
    (evdev : string) (others : list string) (rd : string → read_result) :
  _touch_device (Sysfs [] rd) = Returns None
  ∧ (∀ content, rd (name_file evdev) = Text content →
       strip content = TOUCHSCREEN_EVDEV_NAME →
       _touch_device (Sysfs (evdev :: others) rd)
       = Returns (Some ("/dev/input/" +:+ basename evdev))
       ∧ has_sep (basename evdev) = false)
  ∧ (∀ ws1 ws2, blank ws1 = true → blank ws2 = true →
       rd (name_file evdev) = Text (ws1 +:+ TOUCHSCREEN_EVDEV_NAME +:+ ws2) →
       _touch_device (Sysfs (evdev :: others) rd)
       = Returns (Some ("/dev/input/" +:+ basename evdev)))
  ∧ (∀ content, rd (name_file evdev) = Text content →
       strip content ≠ TOUCHSCREEN_EVDEV_NAME →
       _touch_device (Sysfs (evdev :: others) rd) = RaisesRuntimeError)
  ∧ (rd (name_file evdev) = IOError ENOENT →
       _touch_device (Sysfs (evdev :: others) rd) = RaisesRuntimeError)
  ∧ (∀ errno, rd (name_file evdev) = IOError errno → errno ≠ ENOENT →
       _touch_device (Sysfs (evdev :: others) rd) = RaisesIOError errno).
Proof.
  unfold _touch_device, touch_device_turn, name_file. cbn [glob_events read_text].
  split_and!.
  - reflexivity.
  - intros content -> Hname. rewrite bool_decide_true by done.
    by rewrite device_path, basename_no_sep.
  - intros ws1 ws2 H1 H2 ->. rewrite bool_decide_true by by apply strip_name.
    by rewrite device_path.
  - intros content -> Hname. by rewrite bool_decide_false.
  - intros ->. by rewrite bool_decide_false by (by intros []).
  - intros errno -> Hne. by rewrite bool_decide_true.
Qed.

(** The touchscreen listed second is not found. *)
Lemma touch_device_looks_at_first_entry_only_witness :
  _touch_device touchscreen_listed_second = RaisesRuntimeError
  ∧ read_text touchscreen_listed_second (name_file "/sys/class/input/event1")
    = Text (TOUCHSCREEN_EVDEV_NAME +:+ String (ascii_of_nat 10) EmptyString).
Proof.
  split; [|reflexivity].
  apply (touch_device_looks_at_first_entry_only
           "/sys/class/input/event0" ["/sys/class/input/event1"] []
           (read_text touchscreen_listed_second)
           (read_text touchscreen_listed_second)).
  - intros content [= <-]. vm_compute. discriminate.
  - intros errno. vm_compute. discriminate.
Defined.

(** ** Reading and iterating *)

Section Iteration.

Variable p : platform.
Implicit Types (self : Touchscreen.t) (bs : list byte).

Lemma le_uint_bounds bs : 0 ≤ le_uint bs < 2 ^ (8 * Z.of_nat (length bs)).
Proof.
  induction bs as [|b bs IH]; [simpl; lia|].
  cbn [le_uint fold_right length]. fold (le_uint bs).
  pose proof (Byte.to_N_bounded b).
  replace (8 * Z.of_nat (S (length bs))) with (8 + 8 * Z.of_nat (length bs)) by lia.
  rewrite Z.pow_add_r by lia. change (2 ^ 8) with 256. lia.
Qed.

Lemma unpack_uint_bounds bs :
  0 ≤ unpack_uint p bs < 2 ^ (8 * Z.of_nat (length bs)).
Proof.
  unfold unpack_uint. destruct (order p); [apply le_uint_bounds|].
  rewrite <-(length_rev bs). apply le_uint_bounds.
Qed.

Lemma unpack_int_bounds bs :
  (0 < length bs)%nat →
  - 2 ^ (8 * Z.of_nat (length bs) - 1) ≤ unpack_int p bs
  < 2 ^ (8 * Z.of_nat (length bs) - 1).
Proof.
  intros Hlen. unfold unpack_int. pose proof (unpack_uint_bounds bs) as Hu.
  assert (2 ^ (8 * Z.of_nat (length bs))
          = 2 * 2 ^ (8 * Z.of_nat (length bs) - 1)) as Hpow.
  { rewrite <-Z.pow_succ_r by lia. f_equal. lia. }
  case_decide; lia.
Qed.

Lemma length_slice off n bs :
  (off + n ≤ length bs)%nat → length (slice off n bs) = n.
Proof. intros H. unfold slice. rewrite length_take, length_drop. lia. Qed.

(** Every byte string of the size of a record unpacks, to values that fit
    the fields. *)
Lemma unpack_whole_record bs :
  length bs = calcsize p →
  ∃ tv_sec tv_usec ty co va,
    unpack p bs = Some (tv_sec, tv_usec, ty, co, va)
    ∧ fits p tv_sec tv_usec ty co va.
Proof.
  intros Hlen. unfold unpack. rewrite decide_True by done.
  do 5 eexists. split; [reflexivity|].
  assert (0 < sizeof_long p)%nat by (unfold sizeof_long; destruct (longs p); lia).
  unfold calcsize in Hlen. unfold fits.
  set (w := sizeof_long p) in *.
  pose proof (unpack_int_bounds (slice 0 w bs)) as H1.
  pose proof (unpack_int_bounds (slice w w bs)) as H2.
  pose proof (unpack_uint_bounds (slice (w + w) 2 bs)) as H3.
  pose proof (unpack_uint_bounds (slice (w + w + 2) 2 bs)) as H4.
  pose proof (unpack_int_bounds (slice (w + w + 4) 4 bs)) as H5.
  rewrite !length_slice in * by lia.
  specialize (H1 H). specialize (H2 H). specialize (H5 ltac:(lia)).
  change (8 * Z.of_nat 2) with 16 in *. change (8 * Z.of_nat 4 - 1) with 31 in *.
  cbv zeta. tauto.
Qed.

Lemma read_whole_record self :
  (Touchscreen.EVENT_SIZE p ≤ length (Touchscreen._f_device self))%nat →
  ∃ event, Touchscreen.read p self
           = (Ok event,
              Touchscreen.set_f_device
                (drop (Touchscreen.EVENT_SIZE p) (Touchscreen._f_device self))
                self)
           ∧ event_fits p event.
Proof.
  intros Hlen. rewrite read_unfold.
  destruct (unpack_whole_record
              (take (Touchscreen.EVENT_SIZE p) (Touchscreen._f_device self)))
    as (s & u & t & c & v & -> & Hfits).
  { rewrite length_take. unfold Touchscreen.EVENT_SIZE in *. lia. }
  by eexists.
Qed.

Lemma iter_loop_spec fuel self :
  (length (Touchscreen._f_device self) < fuel)%nat →
  ∃ events self',
    iter_loop p fuel self = Some (events, struct_error, self')
    ∧ length events
      = (length (Touchscreen._f_device self) / Touchscreen.EVENT_SIZE p)%nat
    ∧ Forall (event_fits p) events
    ∧ Touchscreen._f_device self' = []
    ∧ Touchscreen.registry self' = Touchscreen.registry self.
Proof.
  revert self. induction fuel as [|fuel IH]; intros self Hfuel; [lia|].
  pose proof (calcsize_pos p) as Hpos. fold (Touchscreen.EVENT_SIZE p) in Hpos.
  cbn [iter_loop].
  destruct (decide (Touchscreen.EVENT_SIZE p
                    ≤ length (Touchscreen._f_device self))%nat) as [Hle|Hlt].
  - destruct (read_whole_record self Hle) as (event & -> & Hfits).
    destruct (IH (Touchscreen.set_f_device
                    (drop (Touchscreen.EVENT_SIZE p) (Touchscreen._f_device self))
                    self))
      as (events & self' & -> & Hlen & Hall & Hdev & Hreg).
    { simpl. rewrite length_drop. lia. }
    exists (event :: events), self'.
    split_and!; [done | | by constructor | done | done].
    simpl in Hlen. rewrite length_drop in Hlen. simpl. rewrite Hlen.
    replace (length (Touchscreen._f_device self))
      with (length (Touchscreen._f_device self) - Touchscreen.EVENT_SIZE p
            + 1 * Touchscreen.EVENT_SIZE p)%nat at 2 by lia.
    rewrite Nat.div_add by lia. lia.
  - rewrite read_short by (rewrite length_take; lia).
    eexists [], _. split_and!; [done | | done | | done].
    + simpl. rewrite Nat.div_small; lia.
    + simpl. apply drop_ge. lia.
Qed.

End Iteration.

(** X3.  Every event that [read] returns has fields within the C types of
    the record format: the two parts of the timestamp within a signed
    [long], [type] and [code] within 0 .. 65535 and [value] within a signed
    32-bit [int]; and [read] has then taken exactly [EVENT_SIZE] bytes off
    the device, which held at least that many. *)
Theorem read_event_fits_record_format
    (p : platform) (self self' : Touchscreen.t) (event : TouchEvent) :
  Touchscreen.read p self = (Ok event, self') →
  event_fits p event
  ∧ 0 ≤ type event < 65536 ∧ 0 ≤ code event < 65536
  ∧ - 2147483648 ≤ value event < 2147483648
  ∧ (Touchscreen.EVENT_SIZE p ≤ length (Touchscreen._f_device self))%nat
  ∧ Touchscreen._f_device self'
    = drop (Touchscreen.EVENT_SIZE p) (Touchscreen._f_device self).
Proof.
  intros Hread.
  pose proof (read_Ok_length _ _ _ _ Hread) as [Hlen _].
  destruct (read_whole_record p self Hlen) as (event' & Hread' & Hfits).
  rewrite Hread in Hread'. injection Hread' as -> ->.
  split; [done|]. destruct Hfits as (_ & _ & Ht & Hc & Hv).
  change (2 ^ 16) with 65536 in *. change (2 ^ 31) with 2147483648 in *.
  done.
Qed.

Lemma read_event_fits_record_format_witness :
  let self := Touchscreen.init (pack ilp32 1 2 EV_ABS ABS_MT_SLOT (-1)) in
  ∃ event self',
    Touchscreen.read ilp32 self = (Ok event, self')
    ∧ value event = -1
    ∧ event_fits ilp32 event.
Proof.
  intros self.
  exists (mkTouchEvent (1, 2) EV_ABS ABS_MT_SLOT (-1)),
         (Touchscreen.set_f_device [] self).
  split; [reflexivity|]. split; [reflexivity|].
  apply (read_event_fits_record_format ilp32 self
           (Touchscreen.set_f_device [] self)).
  reflexivity.
Defined.

(** X4.  Iterating over the touchscreen yields one event for each whole
    record on the device, whatever its bytes are, and then ends by raising
    [struct.error], never by stopping: the number of events is the number of
    bytes divided by [EVENT_SIZE], the device is read to its end, and the
    position, the touches and the cursor are not touched. *)
Theorem iter_yields_one_event_per_whole_record
    (p : platform) (self : Touchscreen.t) :
  ∃ events self',
    __iter__ p self = Some (events, struct_error, self')
    ∧ length events
      = (length (Touchscreen._f_device self) / Touchscreen.EVENT_SIZE p)%nat
    ∧ Forall (event_fits p) events
    ∧ Touchscreen._f_device self' = []
    ∧ Touchscreen.registry self' = Touchscreen.registry self.
Proof. apply iter_loop_spec. lia. Qed.

Section RoundTrip.

Variable p : platform.
Implicit Types (self : Touchscreen.t) (event : TouchEvent).


(** The record of an event is read back as that event. *)
Lemma read_encode self event (rest : list byte) :
  event_fits p event →
  Touchscreen._f_device self = encode p event ++ rest →
  Touchscreen.read p self = (Ok event, Touchscreen.set_f_device rest self).
Proof.
  intros Hfits Hdev. destruct event as [[tv_sec tv_usec] ty co va].
  by apply read_pack.
Qed.


End RoundTrip.



(** ** How [poll] and [_run] end *)

Section Progress.

Variable p : platform.
Implicit Types (self : Touchscreen.t) (fuel : nat).

Lemma same_frame_stopped self self' :
  same_frame self self' → stopped self' = stopped self.
Proof. intros (_ & Hr & Ht & _). unfold stopped. by rewrite Hr, Ht. Qed.

(** A call of [poll] that was not stopped at its start keeps the flags and
    either returns the touches, having read at least one record, or raises;
    when it raises [struct.error] the device is at its end. *)
Lemma poll_loop_progress fuel self o :
  Touchscreen.poll_loop p fuel self = Some o →
  stopped self = false →
  Touchscreen._running (Touchscreen.final o) = Touchscreen._running self
  ∧ Touchscreen._thread (Touchscreen.final o) = Touchscreen._thread self
  ∧ (length (Touchscreen._f_device (Touchscreen.final o))
     ≤ length (Touchscreen._f_device self))%nat
  ∧ match Touchscreen.returned o with
    | Ok None => False
    | Ok (Some _) =>
        (length (Touchscreen._f_device (Touchscreen.final o))
         + Touchscreen.EVENT_SIZE p
         ≤ length (Touchscreen._f_device self))%nat
    | Raise struct_error => Touchscreen._f_device (Touchscreen.final o) = []
    | Raise IndexError => True
    end.
Proof.
  revert self o. induction fuel as [|fuel IH]; intros self o; [done|].
  rewrite poll_loop_S. intros Hpoll Hrun. rewrite Hrun in Hpoll.
  destruct (decide (Touchscreen.EVENT_SIZE p
                    ≤ length (Touchscreen._f_device self))%nat) as [Hle|Hlt].
  2:{ rewrite read_short in Hpoll by (rewrite length_take; lia).
      injection Hpoll as <-. simpl. rewrite length_drop.
      split_and!; [done | done | lia |]. apply drop_ge. lia. }
  destruct (read_whole_record p self Hle) as (event & Hread & _).
  rewrite Hread in Hpoll.
  pose proof (calcsize_pos p) as Hpos. fold (Touchscreen.EVENT_SIZE p) in Hpos.
  case_decide.
  { injection Hpoll as <-. simpl. rewrite length_drop.
    split_and!; [done | done | lia | lia]. }
  destruct (if decide (type event = EV_ABS) then _ else _)
    as [[[]|e] self2] eqn:Hrec.
  - apply record_frame in Hrec as (Hframe & _ & _).
    pose proof (same_frame_stopped _ _ Hframe) as Hstop.
    destruct Hframe as (Hdev & Hr & Ht & _). simpl in *.
    apply IH in Hpoll as (Hr' & Ht' & Hlen' & Hret); [|by rewrite Hstop].
    rewrite Hdev, length_drop in *.
    split_and!; [congruence | congruence | lia |].
    destruct (Touchscreen.returned o) as [[l|]|[]]; try done. lia.
  - apply record_frame in Hrec as ((Hdev & Hr & Ht & _) & _ & Herr).
    destruct (Herr e eq_refl) as [-> _].
    injection Hpoll as <-. simpl in *. rewrite Hdev, length_drop.
    split_and!; [done | done | lia | done].
Qed.

Lemma run_loop_ends fuel self :
  (length (Touchscreen._f_device self) < fuel)%nat →
  Touchscreen._running self = true →
  ∃ r e, _run_loop p fuel self = Some r
         ∧ run_raised r = Some e
         ∧ Touchscreen._running (run_final r) = true
         ∧ Touchscreen._thread (run_final r) = Touchscreen._thread self
         ∧ (e = struct_error → Touchscreen._f_device (run_final r) = []).
Proof.
  revert self. induction fuel as [|fuel IH]; intros self Hfuel Hrun; [lia|].
  cbn [_run_loop]. rewrite Hrun.
  destruct (poll_total p self) as [o Hpoll]. rewrite Hpoll.
  assert (stopped self = false) as Hstop.
  { unfold stopped. rewrite Hrun. apply andb_false_r. }
  apply poll_loop_progress in Hpoll as (Hr & Ht & _ & Hret); [|done].
  pose proof (calcsize_pos p) as Hpos. fold (Touchscreen.EVENT_SIZE p) in Hpos.
  destruct (Touchscreen.returned o) as [[l|]|e] eqn:Hreturned; [| done |].
  - destruct (IH (Touchscreen.final o)) as (r & e & -> & He & Hr' & Ht' & Hdev);
      [lia | congruence |].
    eexists _, e. split; [reflexivity|]. simpl.
    split_and!; [done | done | congruence | done].
  - eexists _, e. split; [reflexivity|]. simpl.
    split_and!; [done | congruence | done |]. by intros ->.
Qed.

End Progress.


(** X7.  Left to itself, [_run] does not return: it turns [_running] on,
    and as no record turns it off the loop goes on until [poll] raises.  On
    a device that ends this always happens: [_run] ends with an exception,
    with [_running] still on; when the exception is [struct.error] every
    byte of the device has been read. *)
Theorem run_ends_only_by_raising (p : platform) (self : Touchscreen.t) :
  ∃ r e, _run p self = Some r
         ∧ run_raised r = Some e
         ∧ Touchscreen._running (run_final r) = true
         ∧ Touchscreen._thread (run_final r) = Touchscreen._thread self
         ∧ (e = struct_error → Touchscreen._f_device (run_final r) = []).
Proof.
  unfold _run. apply (run_loop_ends p _ (set_running true self)); [lia | done].
Qed.

(** ** Frames *)

Section Frames.

Variable p : platform.
Implicit Types (self : Touchscreen.t) (event : TouchEvent)
  (events : list TouchEvent) (d : list byte).

(** What [poll] does with a record does not depend on the device. *)
Lemma poll_abs_device event d self :
  Touchscreen.poll_abs event (Touchscreen.set_f_device d self)
  = (fst (Touchscreen.poll_abs event self),
     Touchscreen.set_f_device d (snd (Touchscreen.poll_abs event self))).
Proof.
  rewrite !poll_abs_cases. repeat case_decide; try reflexivity;
    rewrite !set_current_touch_unfold; simpl; by destruct (subscript _ _).
Qed.

Lemma handle_record_device event d self :
  handle_record event (Touchscreen.set_f_device d self)
  = (fst (handle_record event self),
     Touchscreen.set_f_device d (snd (handle_record event self))).
Proof.
  unfold handle_record, when. case_bool_decide; [apply poll_abs_device | done].
Qed.

Lemma handle_records_device events d self :
  handle_records events (Touchscreen.set_f_device d self)
  = (fst (handle_records events self),
     Touchscreen.set_f_device d (snd (handle_records events self))).
Proof.
  revert self. induction events as [|event events IH]; intros self; [done|].
  cbn [handle_records]. unfold bind.
  rewrite handle_record_device.
  destruct (handle_record event self) as [[[]|e] self1]; simpl; [|done].
  apply IH.
Qed.

Lemma handle_record_decide event self :
  (if decide (type event = EV_ABS)
   then Touchscreen.poll_abs event self else (Ok tt, self))
  = handle_record event self.
Proof. unfold handle_record, when. by case_decide; case_bool_decide. Qed.

(** One turn of [poll] on a record that is not a barrier. *)
Lemma poll_record event rest self self1 :
  stopped self = false →
  event_fits p event → type event ≠ EV_SYN →
  Touchscreen._f_device self = encode p event ++ rest →
  handle_record event self = (Ok tt, self1) →
  Touchscreen.poll p self
  = Touchscreen.poll p (Touchscreen.set_f_device rest self1).
Proof.
  intros Hrun Hfits Hsyn Hdev Hrec.
  rewrite (poll_unfold p self), Hrun, (read_encode p self event rest Hfits Hdev).
  rewrite decide_False by done.
  rewrite handle_record_decide, handle_record_device, Hrec. done.
Qed.

Lemma handle_record_stopped event self r self1 :
  handle_record event self = (r, self1) → stopped self1 = stopped self.
Proof.
  rewrite <-handle_record_decide.
  intros (Hframe & _)%record_frame. by apply same_frame_stopped.
Qed.

Lemma poll_frame events syn rest self self' :
  stopped self = false →
  Forall (event_fits p) events →
  Forall (λ event, type event ≠ EV_SYN) events →
  event_fits p syn → type syn = EV_SYN →
  Touchscreen._f_device self
  = flat_map (encode p) events ++ encode p syn ++ rest →
  handle_records events self = (Ok tt, self') →
  Touchscreen.poll p self
  = Some (Touchscreen.Outcome
            (Ok (Some (map Touch.clear (Touchscreen.touches self'))))
            (barrier_calls (Touchscreen.touches self'))
            (Touchscreen.set_f_device rest
               (Touchscreen.set_touches
                  (map Touch.clear (Touchscreen.touches self')) self'))).
Proof.
  revert self self'.
  induction events as [|event events IH];
    intros self self' Hrun Hfits Hnosyn Hsynfits Hsyn Hdev Hrecs.
  - injection Hrecs as <-. simpl in Hdev.
    rewrite poll_unfold, Hrun, (read_encode p self syn rest Hsynfits Hdev).
    by rewrite decide_True.
  - apply Forall_cons in Hfits as [Hfit Hfits].
    apply Forall_cons in Hnosyn as [Hne Hnosyn].
    cbn [flat_map] in Hdev. rewrite <-app_assoc in Hdev.
    cbn [handle_records] in Hrecs. unfold bind in Hrecs.
    destruct (handle_record event self) as [[[]|e] self1] eqn:Hrec; [|done].
    rewrite (poll_record event _ self self1 Hrun Hfit Hne Hdev Hrec).
    set (d := flat_map (encode p) events ++ encode p syn ++ rest).
    rewrite (IH (Touchscreen.set_f_device d self1)
                (Touchscreen.set_f_device d self')).
    + reflexivity.
    + rewrite <-(handle_record_stopped _ _ _ _ Hrec) in Hrun. done.
    + done.
    + done.
    + done.
    + done.
    + done.
    + by rewrite handle_records_device, Hrecs.
Qed.

Lemma valid_clear (l : list Touch.t) :
  Touches.valid (map Touch.clear l) = map Touch.clear (Touches.valid l).
Proof.
  unfold Touches.valid. induction l as [|touch l IH]; [done|].
  simpl. change (Touch.valid (Touch.clear touch)) with (Touch.valid touch).
  destruct (Touch.valid touch); simpl; by rewrite IH.
Qed.

End Frames.

(** X8.  [poll] decodes one frame.  When the device holds the records of
    some events that are not barriers, then a barrier record, then other
    bytes, and handling the events one after the other raises nothing,
    [poll] is: handle the events in order, dispatch every touch as it then
    stands, clear them, and return them.  Nothing is dispatched before the
    barrier, the bytes after the barrier stay on the device, and the valid
    touches of the result are the touches that were valid at the barrier. *)
Theorem poll_decodes_one_frame
    (p : platform) (self self' : Touchscreen.t) (events : list TouchEvent)
    (syn : TouchEvent) (rest : list byte) :
  stopped self = false →
  Forall (event_fits p) events →
  Forall (λ event, type event ≠ EV_SYN) events →
  event_fits p syn → type syn = EV_SYN →
  Touchscreen._f_device self
  = flat_map (encode p) events ++ encode p syn ++ rest →
  handle_records events self = (Ok tt, self') →
  ∃ o, Touchscreen.poll p self = Some o
    ∧ Touchscreen.returned o
      = Ok (Some (map Touch.clear (Touchscreen.touches self')))
    ∧ Touchscreen.calls o = barrier_calls (Touchscreen.touches self')
    ∧ Touchscreen.touches (Touchscreen.final o)
      = map Touch.clear (Touchscreen.touches self')
    ∧ Touchscreen.position (Touchscreen.final o) = Touchscreen.position self'
    ∧ Touchscreen._touch_slot (Touchscreen.final o)
      = Touchscreen._touch_slot self'
    ∧ Touchscreen._f_device (Touchscreen.final o) = rest
    ∧ Touches.valid (Touchscreen.touches (Touchscreen.final o))
      = map Touch.clear (Touches.valid (Touchscreen.touches self')).
Proof.
  intros Hrun Hfits Hnosyn Hsynfits Hsyn Hdev Hrecs.
  eexists. split; [by eapply poll_frame|]. simpl.
  split_and!; try done. apply valid_clear.
Qed.

Lemma poll_decodes_one_frame_witness :
  let self :=
    touchscreen_with_callbacks 1%nat 2%nat 3%nat
      (flat_map (encode lp64) contact_down ++ encode lp64 barrier
       ++ short_record) in
  ∃ o, Touchscreen.poll lp64 self = Some o
    ∧ map call_summary (Touchscreen.calls o)
      = [(SlotRef 2, 2%nat, TS_PRESS, (100, 200), (0, 0));
         (SlotRef 2, 1%nat, TS_MOVE, (100, 200), (0, 0))]
    ∧ Touchscreen._f_device (Touchscreen.final o) = short_record
    ∧ map Touch.slot (Touches.valid (Touchscreen.touches (Touchscreen.final o)))
      = [2].
Proof.
  intros self.
  destruct (poll_decodes_one_frame lp64 self (snd (handle_records contact_down self))
              contact_down barrier short_record)
    as (o & Hpoll & _ & Hcalls & _ & _ & _ & Hdev & Hvalid).
  - reflexivity.
  - repeat constructor; vm_compute; congruence.
  - repeat constructor; vm_compute; congruence.
  - repeat constructor; vm_compute; congruence.
  - reflexivity.
  - reflexivity.
  - reflexivity.
  - exists o. rewrite Hcalls, Hdev, Hvalid. by split_and!.
Defined.

(** X9.  [poll] passes over what it does not know.  A record whose type
    is neither [EV_SYN] nor [EV_ABS], or an [EV_ABS] record whose code is
    none of the six that [poll] tests for, is read and changes nothing:
    [poll] goes on as if the device had started after that record. *)
Theorem poll_passes_over_other_records
    (p : platform) (self : Touchscreen.t) (event : TouchEvent)
    (rest : list byte) :
  stopped self = false →
  event_fits p event →
  ignored event →
  Touchscreen._f_device self = encode p event ++ rest →
  handle_record event self = (Ok tt, self)
  ∧ Touchscreen.poll p self
    = Touchscreen.poll p (Touchscreen.set_f_device rest self).
Proof.
  intros Hrun Hfits [Hsyn Hother] Hdev.
  assert (handle_record event self = (Ok tt, self)) as Hrec.
  { unfold handle_record, when. case_bool_decide as Habs; [|done].
    destruct Hother as [?|Hcode]; [done|].
    unfold abs_codes in Hcode. rewrite !not_elem_of_cons in Hcode.
    destruct Hcode as (? & ? & ? & ? & ? & ? & _).
    rewrite poll_abs_cases. by rewrite !decide_False. }
  split; [done|]. by apply (poll_record p event rest self self).
Qed.

Lemma poll_passes_over_other_records_witness :
  let misc := mkTouchEvent (0, 0) 4 4 589825 in
  let self :=
    touchscreen_with_callbacks 1%nat 2%nat 3%nat
      (encode lp64 misc ++ contact_frames lp64) in
  Touchscreen.poll lp64 self
  = Touchscreen.poll lp64
      (Touchscreen.set_f_device (contact_frames lp64) self).
Proof.
  intros misc self.
  apply (poll_passes_over_other_records lp64 self misc (contact_frames lp64)).
  - reflexivity.
  - repeat constructor; vm_compute; congruence.
  - split; [vm_compute; congruence|]. left. vm_compute. congruence.
  - reflexivity.
Defined.

(** X10.  A write through the cursor changes one touch.  With the cursor
    on a slot of the list, a tracking-id, x or y record runs the setter on
    the touch at the cursor and raises nothing; every other touch, the
    position and the cursor stay what they were. *)
Theorem cursor_write_changes_one_touch
    (self : Touchscreen.t) (tv : Z * Z) (v : Z) :
  0 ≤ Touchscreen._touch_slot self < Z.of_nat (length (Touchscreen.touches self)) →
  let n := Z.to_nat (Touchscreen._touch_slot self) in
  ∀ c f,
    (c, f) ∈ [(ABS_MT_TRACKING_ID, Touch.set_id v);
              (ABS_MT_POSITION_X, Touch.set_x v);
              (ABS_MT_POSITION_Y, Touch.set_y v)] →
    ∃ self',
      Touchscreen.poll_abs (mkTouchEvent tv EV_ABS c v) self = (Ok tt, self')
      ∧ Touchscreen.touches self' !! n = f <$> Touchscreen.touches self !! n
      ∧ (∀ j, j ≠ n →
           Touchscreen.touches self' !! j = Touchscreen.touches self !! j)
      ∧ length (Touchscreen.touches self') = length (Touchscreen.touches self)
      ∧ Touchscreen.position self' = Touchscreen.position self
      ∧ Touchscreen._touch_slot self' = Touchscreen._touch_slot self.
Proof.
  intros Hslot n c f Hcf.
  assert (Touchscreen.set_current_touch f self
          = (Ok tt, Touchscreen.set_touches
                      (alter f n (Touchscreen.touches self)) self)) as Hset.
  { rewrite set_current_touch_unfold. by rewrite subscript_in_range. }
  exists (Touchscreen.set_touches (alter f n (Touchscreen.touches self)) self).
  split.
  - rewrite poll_abs_cases. cbn [code value].
    rewrite !elem_of_cons in Hcf.
    destruct Hcf as [[= -> ->]|[[= -> ->]|[[= -> ->]|Hcf]]];
      [| | |by apply elem_of_nil in Hcf];
      rewrite ?decide_False by done; by rewrite decide_True.
  - simpl. split_and!; try done.
    + apply list_lookup_alter_eq.
    + intros j Hj. by apply list_lookup_alter_ne.
    + apply length_alter.
Qed.

Lemma cursor_write_changes_one_touch_witness :
  let self := Touchscreen.set_touch_slot 4 (Touchscreen.init []) in
  ∃ self',
    Touchscreen.poll_abs (mkTouchEvent (0, 0) EV_ABS ABS_MT_POSITION_X 33) self
    = (Ok tt, self')
    ∧ (∀ j, j ≠ 4%nat →
         Touchscreen.touches self' !! j = Touchscreen.touches self !! j)
    ∧ Touch.x <$> Touchscreen.touches self' !! 4%nat = Some 33.
Proof.
  intros self.
  destruct (cursor_write_changes_one_touch self (0, 0) 33)
    with (c := ABS_MT_POSITION_X) (f := Touch.set_x 33)
    as (self' & Hrec & Hn & Hother & _).
  - vm_compute. split; congruence.
  - right. left.
  - exists self'. split; [exact Hrec|]. split; [exact Hother|].
    change (Z.to_nat (Touchscreen._touch_slot self)) with 4%nat in Hn.
    rewrite Hn. reflexivity.
Defined.

(** ** What the callbacks receive *)

Section Calls.

Variable p : platform.
Implicit Types (self : Touchscreen.t) (touch : Touch.t) (c : Touch.call).

Lemma callback_for_known touch e f :
  callback_for touch e = Some f → known_event e.
Proof.
  unfold callback_for, known_event. repeat case_decide; try done; tauto.
Qed.

(** A call of [handle_events] passes the touch itself, for one of its
    pending events, to the callable of that event. *)
Lemma handle_events_call touch c :
  c ∈ fst (Touch.handle_events touch) →
  Touch.arg_touch c = touch
  ∧ Touch.arg_event c ∈ Touch.events touch
  ∧ callback_for touch (Touch.arg_event c) = Some (Touch.callee c)
  ∧ known_event (Touch.arg_event c).
Proof.
  simpl. rewrite list_elem_of_In, in_flat_map.
  intros (e & He%list_elem_of_In & Hc%list_elem_of_In).
  rewrite handle_event_callback in Hc. unfold Touch.invoke in Hc.
  destruct (callback_for touch e) as [f|] eqn:Hcb; [|by apply elem_of_nil in Hc].
  apply list_elem_of_singleton in Hc as ->. simpl.
  split_and!; [done | done | done | by eapply callback_for_known].
Qed.

Lemma map_slot_alter (f : Touch.t → Touch.t) (l : list Touch.t) (i : nat) :
  (∀ touch, Touch.slot (f touch) = Touch.slot touch) →
  map Touch.slot (alter f i l) = map Touch.slot l.
Proof.
  intros Hf. revert i. induction l as [|touch l IH]; intros [|i]; simpl;
    rewrite ?Hf; try done.
  f_equal. apply IH.
Qed.

Lemma set_current_touch_slots f self r self' :
  (∀ touch, Touch.slot (f touch) = Touch.slot touch) →
  Touchscreen.set_current_touch f self = (r, self') →
  map Touch.slot (Touchscreen.touches self')
  = map Touch.slot (Touchscreen.touches self).
Proof.
  intros Hf. rewrite set_current_touch_unfold.
  destruct (subscript _ _); intros [= <- <-]; [|done].
  by apply map_slot_alter.
Qed.

Lemma poll_abs_slots event self r self' :
  Touchscreen.poll_abs event self = (r, self') →
  map Touch.slot (Touchscreen.touches self')
  = map Touch.slot (Touchscreen.touches self).
Proof.
  rewrite poll_abs_cases. repeat case_decide; try by intros [= <- <-].
  - apply set_current_touch_slots. intros touch.
    unfold Touch.set_id. by repeat case_decide.
  - apply set_current_touch_slots. intros touch.
    unfold Touch.set_x. by repeat case_decide.
  - apply set_current_touch_slots. intros touch.
    unfold Touch.set_y. by repeat case_decide.
Qed.

(** The calls of one [poll]: each is made at the barrier, on a touch of the
    list, with the touch as it stands at the end of the frame. *)
Lemma poll_loop_calls fuel self o :
  Touchscreen.poll_loop p fuel self = Some o →
  map Touch.slot (Touchscreen.touches (Touchscreen.final o))
  = map Touch.slot (Touchscreen.touches self)
  ∧ ∀ i c, (SlotRef i, c) ∈ Touchscreen.calls o →
      Touchscreen.touches (Touchscreen.final o) !! i
      = Some (Touch.clear (Touch.arg_touch c))
      ∧ Touch.arg_event c ∈ Touch.events (Touch.arg_touch c)
      ∧ callback_for (Touch.arg_touch c) (Touch.arg_event c)
        = Some (Touch.callee c)
      ∧ known_event (Touch.arg_event c).
Proof.
  revert self o. induction fuel as [|fuel IH]; intros self o; [done|].
  rewrite poll_loop_S. destruct (stopped self).
  { intros [= <-]. split; [done|]. by intros i c ?%elem_of_nil. }
  pose proof (read_final p self) as Hfin.
  destruct (Touchscreen.read p self) as [[event|e] self1];
    simpl in Hfin; subst self1.
  2:{ intros [= <-]. split; [done|]. by intros i c ?%elem_of_nil. }
  case_decide.
  { intros [= <-]. simpl. split.
    - rewrite map_map. by apply map_ext.
    - intros i c (j & touch & Hj & [= <-] & Hc)%barrier_calls_refs.
      simpl in Hc. apply handle_events_call in Hc as (Harg & He & Hcb & Hk).
      rewrite Harg. split_and!; try done.
      change (map Touch.clear (Touchscreen.touches self))
        with (Touch.clear <$> Touchscreen.touches self).
      by rewrite list_lookup_fmap, Hj. }
  destruct (if decide (type event = EV_ABS) then _ else _)
    as [[[]|e] self2] eqn:Hrec.
  - intros [Hslots Hcalls]%IH. split; [|done]. rewrite Hslots.
    case_decide; [by apply poll_abs_slots in Hrec | by injection Hrec as <-].
  - intros [= <-]. simpl. split; [|by intros i c ?%elem_of_nil].
    case_decide; [by apply poll_abs_slots in Hrec | discriminate].
Qed.


End Calls.

(** X11.  Callbacks see the end of the frame.  Every callback that one
    call of [poll] invokes is invoked at the barrier, on a touch of
    [self.touches]: the touch it receives has the id and the coordinates
    that the slot has when [poll] returns, and still lists its pending
    events, the event of the call among them ([poll] clears them after the
    calls); the event is one of release, press and move, and the callable is
    the one of that event.  A call of [poll] that raises or returns [None]
    has invoked nothing. *)
Theorem callbacks_receive_the_touch_of_the_barrier
    (p : platform) (self : Touchscreen.t) (o : Touchscreen.outcome) :
  Touchscreen.poll p self = Some o →
  (∀ i c, (SlotRef i, c) ∈ Touchscreen.calls o →
     Touchscreen.touches (Touchscreen.final o) !! i
     = Some (Touch.clear (Touch.arg_touch c))
     ∧ Touch.arg_event c ∈ Touch.events (Touch.arg_touch c)
     ∧ callback_for (Touch.arg_touch c) (Touch.arg_event c)
       = Some (Touch.callee c)
     ∧ known_event (Touch.arg_event c))
  ∧ (∀ c, c ∈ Touchscreen.calls o → ∃ i, fst c = SlotRef i)
  ∧ ((∀ l, Touchscreen.returned o ≠ Ok (Some l)) → Touchscreen.calls o = []).
Proof.
  intros Hpoll.
  pose proof (poll_loop_calls _ _ _ _ Hpoll) as [_ Hcalls].
  apply poll_loop_invariant in Hpoll as (_ & _ & Hrefs & _ & Hraise & Hnone).
  split_and!; [done | |].
  - intros c (i & ? & _)%Hrefs. eauto.
  - intros Hret. destruct (Touchscreen.returned o) as [[l|]|e] eqn:Hr.
    + by destruct (Hret l).
    + by apply Hnone.
    + by eapply Hraise.
Qed.

Lemma callbacks_receive_the_touch_of_the_barrier_witness :
  let self :=
    touchscreen_with_callbacks 1%nat 2%nat 3%nat (contact_frames lp64) in
  ∃ o, Touchscreen.poll lp64 self = Some o
    ∧ map call_summary (Touchscreen.calls o)
      = [(SlotRef 2, 2%nat, TS_PRESS, (100, 200), (0, 0));
         (SlotRef 2, 1%nat, TS_MOVE, (100, 200), (0, 0))]
    ∧ ∀ c, c ∈ Touchscreen.calls o → ∃ i, fst c = SlotRef i.
Proof.
  intros self.
  destruct (poll_total lp64 self) as [o Hpoll].
  destruct (callbacks_receive_the_touch_of_the_barrier lp64 self o Hpoll)
    as (_ & Hrefs & _).
  exists o. split; [exact Hpoll|]. split; [|exact Hrefs].
  assert (Some o = Touchscreen.poll lp64 self) as Ho by (by rewrite Hpoll).
  vm_compute in Ho. injection Ho as ->. reflexivity.
Defined.


(** ** One frame of one touch *)

Section Delivery.

Implicit Types (t : Touch.t) (w : write) (ws : list write).

Lemma known_snoc (l : list Z) e :
  Forall known_event l → known_event e → Forall known_event (l ++ [e]).
Proof. intros Hl He. apply Forall_app. by split; [|constructor]. Qed.

Lemma apply_write_known t w :
  Forall known_event (Touch.events t) →
  Forall known_event (Touch.events (apply_write t w)).
Proof.
  intros Hk. destruct w as [v|v|v]; cbn [apply_write];
    rewrite ?set_id_events, ?set_x_events, ?set_y_events;
    repeat case_decide; try done;
    apply known_snoc; try done; unfold known_event; tauto.
Qed.

Lemma apply_writes_known ws t :
  Forall known_event (Touch.events t) →
  Forall known_event (Touch.events (apply_writes ws t)).
Proof.
  revert t. induction ws as [|w ws IH]; intros t Hk; [done|].
  rewrite apply_writes_cons. by apply IH, apply_write_known.
Qed.

Lemma filter_all (P : Z → Prop) `{!∀ e, Decision (P e)} (l : list Z) :
  Forall P l → filter P l = l.
Proof.
  induction 1 as [|e l He Hl IH]; [done|].
  by rewrite filter_cons, decide_True, IH.
Qed.

Lemma known_events_length (l : list Z) :
  NoDup l → Forall known_event l → (length l ≤ 3)%nat.
Proof.
  intros Hnd Hk.
  change 3%nat with (length [TS_RELEASE; TS_PRESS; TS_MOVE]).
  apply submseteq_length, NoDup_submseteq; [done|].
  intros e He. rewrite Forall_forall in Hk.
  destruct (Hk e He) as [-> | [-> | ->]]; rewrite !elem_of_cons; tauto.
Qed.

End Delivery.

(** X13.  With the three callbacks assigned, every pending event is
    delivered, once.  Take a touch at the start of a frame (nothing pending)
    whose [on_move], [on_press] and [on_release] are callable.  After any
    writes to its id and coordinates, dispatch makes exactly one call for
    each pending event, in the order of the list: the events delivered are
    the pending events, no event is delivered twice, and there are at most
    three calls, however many writes there were. *)
Theorem every_pending_event_is_delivered_once
    (t : Touch.t) (ws : list write) (m pr r : handler) :
  Touch.events t = [] →
  Touch.on_move t = Some m → Touch.on_press t = Some pr →
  Touch.on_release t = Some r →
  let t' := apply_writes ws t in
  dispatched_events t' = Touch.events t'
  ∧ NoDup (dispatched_events t')
  ∧ Forall known_event (Touch.events t')
  ∧ (length (fst (Touch.handle_events t')) ≤ 3)%nat
  ∧ Forall (λ c, Touch.arg_touch c = t'
                 ∧ Touch.callee c
                   = (if decide (Touch.arg_event c = TS_MOVE) then m
                      else if decide (Touch.arg_event c = TS_PRESS) then pr
                      else r))
           (fst (Touch.handle_events t')).
Proof.
  intros Hev Hm Hp Hr t'.
  assert (NoDup (Touch.events t')) as Hnd.
  { apply apply_writes_NoDup. rewrite Hev. apply NoDup_nil_2. }
  assert (Forall known_event (Touch.events t')) as Hk.
  { apply apply_writes_known. by rewrite Hev. }
  destruct (apply_writes_callbacks ws t) as (Hm' & Hp' & Hr').
  fold t' in Hm', Hp', Hr'.
  assert (dispatched_events t' = Touch.events t') as Hd.
  { unfold dispatched_events. simpl. rewrite dispatched_events_filter.
    apply filter_all. eapply Forall_impl; [exact Hk|].
    intros e [-> | [-> | ->]]; unfold callback_for, TS_RELEASE, TS_PRESS, TS_MOVE;
      simpl; rewrite ?Hm', ?Hp', ?Hr', ?Hm, ?Hp, ?Hr; eauto. }
  split_and!; [done | by rewrite Hd | done | |].
  - rewrite <-(length_map Touch.arg_event). fold (dispatched_events t').
    rewrite Hd. by apply known_events_length.
  - apply Forall_forall. intros c (Harg & _ & Hcb & _)%handle_events_call.
    split; [done|]. unfold callback_for in Hcb.
    repeat case_decide; try done;
      rewrite ?Hm', ?Hp', ?Hr', ?Hm, ?Hp, ?Hr in Hcb; congruence.
Qed.

Lemma every_pending_event_is_delivered_once_witness :
  let t := with_callbacks 1%nat 2%nat 3%nat (Touch.init 0 0 0) in
  let ws := [WriteX 5; WriteId 9; WriteY 6; WriteX 7; WriteId (-1); WriteId 4] in
  dispatched_events (apply_writes ws t) = [TS_MOVE; TS_PRESS; TS_RELEASE]
  ∧ dispatched_events (apply_writes ws t) = Touch.events (apply_writes ws t)
  ∧ map Touch.callee (fst (Touch.handle_events (apply_writes ws t)))
    = [1%nat; 2%nat; 3%nat].
Proof.
  intros t ws. split; [reflexivity|]. split; [|reflexivity].
  apply (every_pending_event_is_delivered_once t ws 1%nat 2%nat 3%nat);
    reflexivity.
Defined.

(** X14.  The event of an id write follows [value == -1], the validity
    follows [id > -1].  For a write that changes the id of a touch with
    neither press nor release pending: the id -1 appends a release and the
    touch is not valid; an id above -1 appends a press and the touch is
    valid; an id below -1 appends a press as well, and the touch is not
    valid. *)
Theorem changed_id_event_and_validity (t : Touch.t) (v : Z) :
  v ≠ Touch.id t →
  TS_PRESS ∉ Touch.events t → TS_RELEASE ∉ Touch.events t →
  Touch.valid (Touch.set_id v t) = bool_decide (v > -1)
  ∧ (v = -1 →
       Touch.events (Touch.set_id v t) = Touch.events t ++ [TS_RELEASE]
       ∧ Touch.valid (Touch.set_id v t) = false)
  ∧ (v > -1 →
       Touch.events (Touch.set_id v t) = Touch.events t ++ [TS_PRESS]
       ∧ Touch.valid (Touch.set_id v t) = true)
  ∧ (v < -1 →
       Touch.events (Touch.set_id v t) = Touch.events t ++ [TS_PRESS]
       ∧ Touch.valid (Touch.set_id v t) = false).
Proof.
  intros Hne Hp Hr. unfold Touch.id in Hne.
  assert (Touch.valid (Touch.set_id v t) = bool_decide (v > -1)) as Hvalid.
  { unfold Touch.valid, Touch.id, Touch.set_id. by repeat case_decide. }
  rewrite Hvalid, set_id_events. rewrite decide_False by done.
  split_and!; [done | | |].
  - intros ->. by rewrite decide_True.
  - intros Hv. rewrite decide_False by lia. rewrite decide_True by done.
    by rewrite bool_decide_true.
  - intros Hv. rewrite decide_False by lia. rewrite decide_True by done.
    by rewrite bool_decide_false by lia.
Qed.

Lemma changed_id_event_and_validity_witness :
  let t := Touch.set_id (-2) (Touch.init 0 0 0) in
  Touch.events t = [TS_PRESS] ∧ Touch.valid t = false.
Proof.
  intros t.
  destruct (changed_id_event_and_validity (Touch.init 0 0 0) (-2))
    as (_ & _ & _ & Hlow).
  - vm_compute. congruence.
  - apply not_elem_of_nil.
  - apply not_elem_of_nil.
  - apply Hlow. lia.
Defined.

(** ** The demonstration *)

(** X15.  The handler of the demonstration labels every call.  Assigned to
    the three callbacks, [handle_event] receives only the events 0, 1 and 2,
    for which the subscript of the list of labels succeeds: a call for a
    release prints [Release], for a press [Press], for a move [Move], with
    the slot and the coordinates of the touch.  The subscript fails, with
    [IndexError], exactly for an event below -3 or above 2. *)
Theorem demonstration_labels_every_call (t : Touch.t) (c : Touch.call) :
  c ∈ fst (Touch.handle_events t) →
  (∃ label,
     handle_event (Touch.arg_event c) (Touch.arg_touch c)
     = Ok (label, Touch.slot t, Touch.x t, Touch.y t)
     ∧ (Touch.arg_event c = TS_RELEASE ↔ label = "Release")
     ∧ (Touch.arg_event c = TS_PRESS ↔ label = "Press")
     ∧ (Touch.arg_event c = TS_MOVE ↔ label = "Move"))
  ∧ ∀ e touch, handle_event e touch = Raise IndexError ↔ e < -3 ∨ 3 ≤ e.
Proof.
  intros (-> & _ & _ & Hk)%handle_events_call. split.
  - destruct Hk as [-> | [-> | ->]]; eexists; (split; [reflexivity|]);
      unfold TS_RELEASE, TS_PRESS, TS_MOVE; split_and!; split; done.
  - intros e touch. unfold handle_event, getitem, subscript. simpl.
    repeat case_decide; try (split; [done | lia]).
    + assert (e = 0 ∨ e = 1 ∨ e = 2) as [-> | [-> | ->]] by lia;
        simpl; (split; [done | lia]).
    + assert (e = -3 ∨ e = -2 ∨ e = -1) as [-> | [-> | ->]] by lia;
        simpl; (split; [done | lia]).
    + split; [lia | done].
Qed.

Lemma demonstration_labels_every_call_witness :
  let t := pressed_then_moved in
  map (λ c, handle_event (Touch.arg_event c) (Touch.arg_touch c))
      (fst (Touch.handle_events t))
  = [Ok ("Press", 0, 3, 0); Ok ("Move", 0, 3, 0)]
  ∧ ∀ e touch, handle_event e touch = Raise IndexError ↔ e < -3 ∨ 3 ≤ e.
Proof.
  intros t. split; [reflexivity|].
  refine (proj2 (demonstration_labels_every_call t
                   (Touch.Call 2%nat TS_PRESS t) _)).
  vm_compute. left.
Defined.
